(** * SD-card file browser (Arduino Mega 2560, SSD1306 OLED, three buttons)

    A shallow embedding of [MEGA_SD_OLED_FileBrowser_LoadBar.ino]: the
    directory model, scroll clamping, path operations, the three button
    actions and the debouncer, followed by the properties of the
    specification that concern them. *)

From Stdlib Require Import ZArith Lia Ascii String.
From stdpp Require Import base list.

Local Open Scope Z_scope.

(** ** Machine integers

    On the ATmega2560 [int] is 16 bits wide, two's complement, and
    [unsigned long] is 32 bits wide.  Both are modelled as [Z] with the
    wrap-around written out. *)

Definition INT_MIN : Z := -32768.
Definition INT_MAX : Z := 32767.

Definition wrap_int (z : Z) : Z := (z + 32768) mod 65536 - 32768.

Definition int_ok (z : Z) : Prop := INT_MIN <= z <= INT_MAX.

Arguments wrap_int : simpl never.

Definition ULONG_MOD : Z := 2 ^ 32.

Definition wrap_ulong (z : Z) : Z := z mod ULONG_MOD.

(** ** C strings

    A NUL-terminated string is modelled by the list of the characters
    before the terminator. *)

Definition cstring : Type := list ascii.

Definition lit (s : string) : cstring := list_ascii_of_string s.

(** [strcmp(a, b) == 0] *)
Fixpoint streq (a b : cstring) : bool :=
  match a, b with
  | [], [] => true
  | x :: a', y :: b' => Ascii.eqb x y && streq a' b'
  | _, _ => false
  end.

(** [strncpy(dst, src, n); dst[n] = '\0';] leaves the first [n]
    characters of [src] in [dst]. *)
Definition strncpy_term (n : nat) (src : cstring) : cstring := take n src.

(** [snprintf(out, outSize, fmt, ...)] where the formatted text is [s]:
    at most [outSize - 1] characters are written, followed by the
    terminator; nothing is written when [outSize] is 0. *)
Definition snprintf (out : cstring) (outSize : nat) (s : cstring) : cstring :=
  match outSize with
  | O => out
  | S k => take k s
  end.

(** [strrchr(s, c)]: offset of the last occurrence of [c], if any. *)
Fixpoint strrchr (s : cstring) (c : ascii) : option nat :=
  match s with
  | [] => None
  | x :: r =>
      match strrchr r c with
      | Some i => Some (S i)
      | None => if Ascii.eqb x c then Some O else None
      end
  end.

Definition slash : ascii := "/"%char.
Definition root : cstring := [slash].

(** ** Browser settings *)

Definition VISIBLE_ITEMS : Z := 5.
Definition MAX_ENTRIES : Z := 50.
Definition SHOW_ONLY_STL : bool := false.
Definition NAME_SIZE : nat := 32.   (* sizeof(Entry::name) *)
Definition PATH_SIZE : nat := 80.   (* sizeof(currentPath), sizeof(newPath) *)

(** ** Data structures *)

Record Entry : Type := mkEntry {
  name : cstring;    (* char name[32] *)
  isDir : bool
}.

Definition blankEntry : Entry := mkEntry [] false.

(** The global variables of the sketch that make up the directory model. *)
Record Browser : Type := mkBrowser {
  entries : list Entry;       (* Entry entries[MAX_ENTRIES] *)
  entryCount : Z;
  selectionIndex : Z;
  scrollOffset : Z;
  currentPath : cstring       (* char currentPath[80] *)
}.

Definition set_entries (es : list Entry) (st : Browser) : Browser :=
  mkBrowser es (entryCount st) (selectionIndex st) (scrollOffset st) (currentPath st).
Definition set_entryCount (n : Z) (st : Browser) : Browser :=
  mkBrowser (entries st) n (selectionIndex st) (scrollOffset st) (currentPath st).
Definition set_selectionIndex (n : Z) (st : Browser) : Browser :=
  mkBrowser (entries st) (entryCount st) n (scrollOffset st) (currentPath st).
Definition set_scrollOffset (n : Z) (st : Browser) : Browser :=
  mkBrowser (entries st) (entryCount st) (selectionIndex st) n (currentPath st).
Definition set_currentPath (p : cstring) (st : Browser) : Browser :=
  mkBrowser (entries st) (entryCount st) (selectionIndex st) (scrollOffset st) p.

(** [entries[idx]].  An index outside the array is undefined behaviour in
    C; the model returns a blank entry there, and every access is logged
    (see [ReadEntry]) so that bounds can be stated. *)
Definition entryAt (st : Browser) (idx : Z) : Entry :=
  if idx <? 0 then blankEntry
  else default blankEntry (entries st !! Z.to_nat idx).

(** ** The storage collaborator

    [SD.open(path)] yields nothing, a plain file, or a directory whose
    [openNextFile] enumeration yields the given children (name, is
    directory) in order. *)
Inductive SdFile : Type :=
| NoFile
| PlainFile
| Directory (children : list (cstring * bool)).

Definition SdCard : Type := cstring -> SdFile.

(** ** Display and timing effects

    The actions return the list of effects they perform, in order.
    [ReadEntry idx count] is instrumentation: it records an access
    [entries[idx]] together with the value of [entryCount] at that
    moment. *)
Inductive Color : Type := SSD1306_WHITE | SSD1306_BLACK.

Inductive Event : Type :=
| ClearDisplay
| SetTextSize (n : Z)
| SetCursor (x y : Z)
| SetTextColor (c : Color)
| Print (s : cstring)
| Println (s : cstring)
| DrawLine (x0 y0 x1 y1 : Z) (c : Color)
| FillRect (x y w h : Z) (c : Color)
| Present
| Delay (ms : Z)
| ReadEntry (idx count : Z).

(** ** Helpers *)

Definition endsWithSTL (s : cstring) : bool :=
  let len := length s in
  if (len <? 4)%nat then false
  else
    match drop (len - 4) s with
    | [e0; e1; e2; e3] =>
        Ascii.eqb e0 "." &&
        (Ascii.eqb e1 "s" || Ascii.eqb e1 "S") &&
        (Ascii.eqb e2 "t" || Ascii.eqb e2 "T") &&
        (Ascii.eqb e3 "l" || Ascii.eqb e3 "L")
    | _ => false
    end.

(** Keeps the selection fully visible; going down pushes it to the fifth
    line. *)
Definition clampScroll (st : Browser) : Browser :=
  if entryCount st <=? 0 then
    set_scrollOffset 0 (set_selectionIndex 0 st)
  else
    let st := if selectionIndex st <? 0 then set_selectionIndex 0 st else st in
    let st := if selectionIndex st >? wrap_int (entryCount st - 1)
              then set_selectionIndex (wrap_int (entryCount st - 1)) st else st in
    let st := if selectionIndex st <? scrollOffset st
              then set_scrollOffset (selectionIndex st) st else st in
    let st := if selectionIndex st >=? wrap_int (scrollOffset st + VISIBLE_ITEMS)
              then set_scrollOffset
                     (wrap_int (selectionIndex st - (VISIBLE_ITEMS - 1))) st
              else st in
    let st := if scrollOffset st <? 0 then set_scrollOffset 0 st else st in
    let maxOffset := wrap_int (entryCount st - VISIBLE_ITEMS) in
    let maxOffset := if maxOffset <? 0 then 0 else maxOffset in
    if scrollOffset st >? maxOffset then set_scrollOffset maxOffset st else st.

(** The body of the row loop of [drawUI]; [n] bounds the rows still to
    draw, [row] and [y] are the loop variables. *)
Fixpoint drawRows (st : Browser) (n : nat) (row y : Z) : list Event :=
  match n with
  | O => []
  | S n' =>
      let idx := wrap_int (scrollOffset st + row) in
      if idx >=? entryCount st then []
      else
        let selected := idx =? selectionIndex st in
        (if selected
         then [FillRect 0 (y - 1) 128 9 SSD1306_WHITE; SetTextColor SSD1306_BLACK]
         else [SetTextColor SSD1306_WHITE])
        ++ [SetCursor 2 y; ReadEntry idx (entryCount st)]
        ++ (if isDir (entryAt st idx)
            then [Print (lit "["); ReadEntry idx (entryCount st);
                  Print (name (entryAt st idx)); Print (lit "]")]
            else [ReadEntry idx (entryCount st); Print (name (entryAt st idx))])
        ++ drawRows st n' (row + 1) (y + 8)
  end.

Definition drawUI (st : Browser) : list Event :=
  [ClearDisplay; SetTextSize 1; SetCursor 0 0; SetTextColor SSD1306_WHITE;
   Print (lit "SD:"); Print (currentPath st);
   DrawLine 0 10 127 10 SSD1306_WHITE]
  ++ drawRows st (Z.to_nat VISIBLE_ITEMS) 0 12
  ++ [Present].

(** One pass of the body of the [while (f && entryCount < MAX_ENTRIES)]
    loop of [loadDirectory] per child that [openNextFile] yields. *)
Definition storeEntry (nm : cstring) (d : bool) (st : Browser) : Browser :=
  set_entryCount (wrap_int (entryCount st + 1))
    (set_entries
       (<[Z.to_nat (entryCount st) := mkEntry (strncpy_term (NAME_SIZE - 1) nm) d]>
          (entries st))
       st).

Fixpoint readEntries (files : list (cstring * bool)) (st : Browser) : Browser :=
  match files with
  | [] => st
  | (nm, d) :: rest =>
      if entryCount st <? MAX_ENTRIES then
        let keep := if negb d && SHOW_ONLY_STL then endsWithSTL nm else true in
        readEntries rest (if keep then storeEntry nm d st else st)
      else st
  end.

Definition loadDirectory (sd : SdCard) (path : cstring) (st : Browser)
  : bool * Browser :=
  let st := set_scrollOffset 0 (set_selectionIndex 0 (set_entryCount 0 st)) in
  match sd path with
  | NoFile => (false, st)
  | PlainFile => (false, st)
  | Directory files => (true, clampScroll (readEntries files st))
  end.

Definition pathJoin (out : cstring) (outSize : nat) (base child : cstring)
  : cstring :=
  if streq base root then snprintf out outSize (slash :: child)
  else snprintf out outSize (base ++ slash :: child).

Definition goParent (path : cstring) : cstring :=
  if streq path root then path
  else
    let len := length path in
    let path :=
      if (1 <? len)%nat && Ascii.eqb (List.last path "000"%char) slash
      then take (len - 1) path else path in
    match strrchr path slash with
    | None => root
    | Some O => take 1 path
    | Some i => take i path
    end.

(** ** Actions *)

Definition onScroll (st : Browser) : Browser * list Event :=
  if entryCount st <=? 0 then (st, [])
  else
    let st := set_selectionIndex (wrap_int (selectionIndex st + 1)) st in
    let st := if selectionIndex st >=? entryCount st
              then set_selectionIndex 0 st else st in
    let st := clampScroll st in
    (st, drawUI st).

Definition onEnter (sd : SdCard) (st : Browser) : Browser * list Event :=
  if entryCount st <=? 0 then (st, [])
  else
    let sel := selectionIndex st in
    if isDir (entryAt st sel) then
      let newPath :=
        pathJoin [] PATH_SIZE (currentPath st) (name (entryAt st sel)) in
      let reads := [ReadEntry sel (entryCount st); ReadEntry sel (entryCount st)] in
      match loadDirectory sd newPath st with
      | (true, st) =>
          let st := set_currentPath (strncpy_term (PATH_SIZE - 1) newPath) st in
          (st, reads ++ drawUI st)
      | (false, st) =>
          (st, reads
               ++ [ClearDisplay; SetTextColor SSD1306_WHITE; SetTextSize 1;
                   SetCursor 0 0; Println (lit "Open folder failed");
                   SetCursor 0 16;
                   ReadEntry (selectionIndex st) (entryCount st);
                   Println (name (entryAt st (selectionIndex st)));
                   Present; Delay 800]
               ++ drawUI st)
      end
    else
      (st, [ReadEntry sel (entryCount st);
            ClearDisplay; SetTextColor SSD1306_WHITE; SetTextSize 1;
            SetCursor 0 0; Println (lit "Selected file:");
            SetCursor 0 16;
            ReadEntry sel (entryCount st);
            Println (name (entryAt st sel));
            Present; Delay 2000]
           ++ drawUI st).

Definition onBack (sd : SdCard) (st : Browser) : Browser * list Event :=
  if streq (currentPath st) root then (st, [])
  else
    let parent := goParent (strncpy_term (PATH_SIZE - 1) (currentPath st)) in
    match loadDirectory sd parent st with
    | (true, st) =>
        let st := set_currentPath (strncpy_term (PATH_SIZE - 1) parent) st in
        (st, drawUI st)
    | (false, st) =>
        let st := set_currentPath root st in
        let st := snd (loadDirectory sd root st) in
        (st, drawUI st)
    end.

(** ** The debouncer and the hardware it reads

    [digitalRead], [millis] and [delay] act on a world made of the
    wall clock (milliseconds since reset, unbounded), the number of
    hardware operations performed so far, and a trace of what was
    observed.  The environment fixes the electrical level of each pin
    over time and the time each hardware operation takes.  [millis()]
    returns the clock modulo 2^32. *)

Definition DEBOUNCE_MS : Z := 120.
Definition HIGH : bool := true.    (* released, INPUT_PULLUP *)
Definition LOW : bool := false.    (* pressed *)

(** Observations, newest first in a trace.  [PressDetected] is
    instrumentation: it marks the moment the condition on line 89 of
    [buttonPressed] holds, stamped with the clock at its [millis()]
    call. *)
Inductive Obs : Type :=
| Sampled (pin : Z) (t : Z) (level : bool)
| PressDetected (pin : Z) (t : Z).

Record World : Type := mkWorld {
  clock : Z;
  opCount : nat;
  trace : list Obs
}.

Record Env : Type := mkEnv {
  level : Z -> Z -> bool;     (* pin, time: HIGH or LOW *)
  latency : nat -> Z          (* duration of the k-th hardware operation *)
}.

Definition tick (env : Env) (w : World) : World :=
  mkWorld (clock w + latency env (opCount w)) (S (opCount w)) (trace w).

Definition digitalRead (env : Env) (pin : Z) (w : World) : bool * World :=
  let v := level env pin (clock w) in
  (v, tick env (mkWorld (clock w) (opCount w) (Sampled pin (clock w) v :: trace w))).

Definition millis (env : Env) (w : World) : Z * World :=
  (wrap_ulong (clock w), tick env w).

Definition delay (env : Env) (ms : Z) (w : World) : World :=
  tick env (mkWorld (clock w + ms) (opCount w) (trace w)).

(** The debounce state of one button: [lastXState], [lastXTime]. *)
Record Button : Type := mkButton {
  lastState : bool;
  lastTime : Z
}.

Definition initialButton : Button := mkButton HIGH 0.

(** [while (digitalRead(pin) == LOW) { delay(5); }]; [None] when the
    pin has not read HIGH within [fuel] iterations. *)
Fixpoint waitRelease (env : Env) (pin : Z) (fuel : nat) (w : World)
  : option World :=
  match fuel with
  | O => None
  | S fuel' =>
      let (v, w) := digitalRead env pin w in
      if v then Some w
      else waitRelease env pin fuel' (delay env 5 w)
  end.

Definition buttonPressed (env : Env) (fuel : nat) (pin : Z) (b : Button)
  (w : World) : option (bool * Button * World) :=
  let (now, w) := digitalRead env pin w in
  let (b, w) :=
    if negb (Bool.eqb now (lastState b))
    then let (t, w) := millis env w in (mkButton now t, w)
    else (b, w) in
  if Bool.eqb now LOW then
    let detected := clock w in
    let (t, w) := millis env w in
    if wrap_ulong (t - lastTime b) >? DEBOUNCE_MS then
      let w := mkWorld (clock w) (opCount w)
                 (PressDetected pin detected :: trace w) in
      match waitRelease env pin fuel w with
      | None => None
      | Some w =>
          let (t, w) := millis env w in
          Some (true, mkButton HIGH t, w)
      end
    else Some (false, b, w)
  else Some (false, b, w).

(** The sketch's [loop] polls a button again and again, with other code
    running for some time in between: [gaps] gives those times. *)
Definition elapse (g : Z) (w : World) : World :=
  mkWorld (clock w + g) (opCount w) (trace w).

Fixpoint pollButton (env : Env) (fuel : nat) (pin : Z) (gaps : list Z)
  (b : Button) (w : World) : option (list bool * Button * World) :=
  match gaps with
  | [] => Some ([], b, w)
  | g :: gaps' =>
      match buttonPressed env fuel pin b (elapse g w) with
      | None => None
      | Some (r, b, w) =>
          match pollButton env fuel pin gaps' b w with
          | None => None
          | Some (rs, b, w) => Some (r :: rs, b, w)
          end
      end
  end.

(** ** Reading a trace

    A trace is newest first.  [is_low pin o] says that [o] is a sample
    of [pin] reading LOW; in particular it is neither a HIGH sample nor
    a detection mark. *)
Definition is_low (pin : Z) (o : Obs) : Prop :=
  match o with
  | Sampled p _ v => p = pin /\ v = LOW
  | PressDetected _ _ => False
  end.

(** Every press was detected only after the pin had read LOW at every
    sample since some sample taken more than [DEBOUNCE_MS] earlier. *)
Definition held_before_press (pin : Z) (tr : list Obs) : Prop :=
  forall newer t older,
    tr = newer ++ PressDetected pin t :: older ->
    exists held tau rest,
      older = held ++ Sampled pin tau LOW :: rest
      /\ Forall (is_low pin) held
      /\ DEBOUNCE_MS <= t - tau.

(** After every detected press the pin was sampled LOW until it read
    HIGH once (all of it before the call returned). *)
Definition released_after_press (pin : Z) (tr : list Obs) : Prop :=
  forall newer t older,
    tr = newer ++ PressDetected pin t :: older ->
    exists later t_r lows,
      newer = later ++ Sampled pin t_r HIGH :: lows
      /\ Forall (is_low pin) lows.

(** Two detected presses are separated by a sample that read HIGH: no
    press-release cycle holds two of them. *)
Definition one_press_per_cycle (pin : Z) (tr : list Obs) : Prop :=
  forall a t2 b t1 c,
    tr = a ++ PressDetected pin t2 :: b ++ PressDetected pin t1 :: c ->
    exists t, In (Sampled pin t HIGH) b.

Fixpoint pressCount (tr : list Obs) : nat :=
  match tr with
  | [] => O
  | PressDetected _ _ :: tr' => S (pressCount tr')
  | Sampled _ _ _ :: tr' => pressCount tr'
  end.

Fixpoint eventCount (rs : list bool) : nat :=
  match rs with
  | [] => O
  | true :: rs' => S (eventCount rs')
  | false :: rs' => eventCount rs'
  end.

(** The shape of the traces the debouncer produces. *)
Inductive debounced (pin : Z) : list Obs -> Prop :=
| deb_nil : debounced pin []
| deb_sample t v tr :
    debounced pin tr -> debounced pin (Sampled pin t v :: tr)
| deb_press t_r lows t tr held tau rest :
    debounced pin tr ->
    tr = held ++ Sampled pin tau LOW :: rest ->
    Forall (is_low pin) held ->
    DEBOUNCE_MS < t - tau ->
    Forall (is_low pin) lows ->
    debounced pin (Sampled pin t_r HIGH :: lows ++ PressDetected pin t :: tr).

(** What the debounce state of a button records about the trace: while
    [lastState] is LOW, [lastTime] is the clock (modulo 2^32) read just
    after a LOW sample since which every sample has read LOW. *)
Definition button_inv (pin : Z) (b : Button) (w : World) : Prop :=
  lastState b = LOW ->
  exists held tau rest t0,
    trace w = held ++ Sampled pin tau LOW :: rest
    /\ Forall (is_low pin) held
    /\ lastTime b = wrap_ulong t0
    /\ tau <= t0 <= clock w.

(** ** Notions of the specification *)

(** The fields hold values of their C types: the three counters are
    16-bit [int]s, the entry table has [MAX_ENTRIES] slots and the path
    fits its 80-byte buffer with the terminator. *)
Record state_ok (st : Browser) : Prop := mkStateOk {
  ok_entries : length (entries st) = Z.to_nat MAX_ENTRIES;
  ok_count : int_ok (entryCount st);
  ok_sel : int_ok (selectionIndex st);
  ok_scroll : int_ok (scrollOffset st);
  ok_path : (length (currentPath st) < PATH_SIZE)%nat
}.

(** The invariant of the directory model (specification, section 3). *)
Definition scroll_inv (st : Browser) : Prop :=
  0 <= scrollOffset st <= selectionIndex st
  /\ selectionIndex st <= scrollOffset st + VISIBLE_ITEMS - 1
  /\ (if entryCount st <=? VISIBLE_ITEMS
      then scrollOffset st = 0
      else scrollOffset st + VISIBLE_ITEMS <= entryCount st).

(** [n] successive presses of the Scroll button. *)
Definition scrollTimes (n : nat) (st : Browser) : Browser :=
  Nat.iter n (fun s => fst (onScroll s)) st.

(** The selection after lines 100-107 of [clampScroll]. *)
Definition clampedSelection (st : Browser) : Z :=
  Z.max 0 (Z.min (selectionIndex st) (entryCount st - 1)).

(** The two counters that [clampScroll] leaves when [entryCount > 0],
    statement by statement. *)
Definition clampFields (ec sel so : Z) : Z * Z :=
  let sel := if sel <? 0 then 0 else sel in
  let sel := if sel >? wrap_int (ec - 1) then wrap_int (ec - 1) else sel in
  let so := if sel <? so then sel else so in
  let so := if sel >=? wrap_int (so + VISIBLE_ITEMS)
            then wrap_int (sel - (VISIBLE_ITEMS - 1)) else so in
  let so := if so <? 0 then 0 else so in
  let maxOffset := wrap_int (ec - VISIBLE_ITEMS) in
  let maxOffset := if maxOffset <? 0 then 0 else maxOffset in
  let so := if so >? maxOffset then maxOffset else so in
  (sel, so).

(** The entry that [loadDirectory] stores for a child. *)
Definition toEntry (f : cstring * bool) : Entry :=
  mkEntry (strncpy_term (NAME_SIZE - 1) (fst f)) (snd f).

(** A valid path: rooted at '/', made of non-empty segments separated
    by single '/', and short enough for the 80-byte path buffer. *)
Fixpoint segments (s : cstring) (afterSlash : bool) : bool :=
  match s with
  | [] => negb afterSlash
  | c :: r =>
      if Ascii.eqb c slash then negb afterSlash && segments r true
      else segments r false
  end.

Definition valid_path (p : cstring) : bool :=
  match p with
  | [] => false
  | c :: r =>
      Ascii.eqb c slash && (length p <? PATH_SIZE)%nat &&
      match r with [] => true | _ => segments r true end
  end.

Definition has_slash (s : cstring) : bool :=
  existsb (fun c => Ascii.eqb c slash) s.

(** Every logged access [entries[idx]] lies in [0, entryCount). *)
Definition read_in_bounds (e : Event) : Prop :=
  match e with
  | ReadEntry idx count => 0 <= idx < count
  | _ => True
  end.

(** The states the sketch can be in once [setup] has loaded the root:
    those that the three actions produce from it. *)
Inductive reachable (sd : SdCard) : Browser -> Prop :=
| reach_setup st :
    state_ok st ->
    reachable sd (snd (loadDirectory sd root (set_currentPath root st)))
| reach_scroll st :
    reachable sd st -> reachable sd (fst (onScroll st))
| reach_enter st :
    reachable sd st -> reachable sd (fst (onEnter sd st))
| reach_back st :
    reachable sd st -> reachable sd (fst (onBack sd st)).

(** What holds of the directory model between two actions. *)
Definition model_inv (st : Browser) : Prop :=
  state_ok st
  /\ 0 <= entryCount st <= MAX_ENTRIES
  /\ (0 < entryCount st ->
      0 <= selectionIndex st < entryCount st /\ scroll_inv st)
  /\ (entryCount st = 0 -> selectionIndex st = 0 /\ scrollOffset st = 0).

(** ** setup and the splash screen

    The board fixes what the sketch cannot decide: whether the display
    answers, whether [SD.begin] succeeds at a given time, and the bar
    width [(int)((barW - 2) * p)] that the float arithmetic of
    [splashWithLoadingBar] gives for an elapsed time (floating point is
    not modelled; the clamps that follow it are).  [SD.begin],
    [loadDirectory] and [display.display()] each count as one hardware
    operation of the environment's duration. *)

Definition TOTAL_MS : Z := 5000.
Definition STEP_MS : Z := 50.
Definition barX : Z := 8.
Definition barY : Z := 54.
Definition barW : Z := 112.
Definition barH : Z := 8.

Record Board : Type := mkBoard {
  oledOk : bool;
  cardReady : Z -> bool;
  barFill : Z -> Z
}.

(** What reaches the display: the effects of the browser, and the
    outline that only the splash draws. *)
Inductive Effect : Type :=
| Shown (e : Event)
| DrawRect (x y w h : Z) (c : Color).

(** The local variables of [splashWithLoadingBar] together with the
    globals it changes.  [scans] is instrumentation: the number of
    calls of [loadDirectory] made by the loop. *)
Record Splash : Type := mkSplash {
  sdOk : bool;
  scanned : bool;
  model : Browser;
  hw : World;
  screen : list Effect;
  scans : nat
}.

Definition sdBegin (board : Board) (env : Env) (w : World) : bool * World :=
  (cardReady board (clock w), tick env w).

Definition statusText (ok sc : bool) : cstring :=
  if negb ok then lit "Loading SD..."
  else if negb sc then lit "Scanning..."
  else lit "Ready".

Definition splashFrame (board : Board) (ok sc : bool) (elapsed : Z)
  : list Effect :=
  let fillW := barFill board elapsed in
  let fillW := if fillW <? 0 then 0 else fillW in
  let fillW := if fillW >? barW - 2 then barW - 2 else fillW in
  [Shown ClearDisplay; Shown (SetTextColor SSD1306_WHITE);
   Shown (SetTextSize 2); Shown (SetCursor 0 10);
   Shown (Println (lit "Spherenex"));
   Shown (SetTextSize 1); Shown (SetCursor 0 36);
   Shown (Println (lit "Shape You Feature"));
   Shown (SetCursor 0 46); Shown (Print (statusText ok sc));
   DrawRect barX barY barW barH SSD1306_WHITE;
   Shown (FillRect (barX + 1) (barY + 1) fillW (barH - 2) SSD1306_WHITE);
   Shown Present].

(** The body of the [while (millis() - start < TOTAL_MS)] loop, from
    the world [w] in which the guard was found to hold. *)
Definition splashBody (board : Board) (env : Env) (sd : SdCard) (start : Z)
  (w : World) (s : Splash) : Splash :=
  let (t, w) := millis env w in
  let elapsed := wrap_ulong (t - start) in
  let (ok, w) :=
    if negb (sdOk s) then sdBegin board env w else (sdOk s, w) in
  let '(sc, m, w, n) :=
    if ok && negb (scanned s)
    then (true,
          snd (loadDirectory sd root (set_currentPath root (model s))),
          tick env w, S (scans s))
    else (scanned s, model s, w, scans s) in
  let frame := splashFrame board ok sc elapsed in
  let w := tick env w in
  let w := delay env STEP_MS w in
  mkSplash ok sc m w (screen s ++ frame) n.

(** The loop; [None] when it has not ended within [fuel] iterations. *)
Fixpoint splashLoop (board : Board) (env : Env) (sd : SdCard) (start : Z)
  (fuel : nat) (s : Splash) : option Splash :=
  match fuel with
  | O => None
  | S fuel' =>
      let (t, w) := millis env (hw s) in
      if wrap_ulong (t - start) <? TOTAL_MS then
        splashLoop board env sd start fuel' (splashBody board env sd start w s)
      else
        Some (mkSplash (sdOk s) (scanned s) (model s) w (screen s) (scans s))
  end.

(** [while (1);] leaves the sketch halted with what is on the screen;
    otherwise [setup] goes on with the model, the world and the screen. *)
Inductive Outcome : Type :=
| Halted (shown : list Effect)
| Started (st : Browser) (w : World) (shown : list Effect).

Definition sdFailedScreen : list Effect :=
  [Shown ClearDisplay; Shown (SetTextColor SSD1306_WHITE);
   Shown (SetTextSize 1); Shown (SetCursor 0 0);
   Shown (Println (lit "SD init FAILED!"));
   Shown (SetCursor 0 16); Shown (Println (lit "Check wiring"));
   Shown Present].

Definition rootFailedScreen : list Effect :=
  [Shown ClearDisplay; Shown (SetTextColor SSD1306_WHITE);
   Shown (SetTextSize 1); Shown (SetCursor 0 0);
   Shown (Println (lit "Root open failed")); Shown Present].

Definition splashWithLoadingBar (board : Board) (env : Env) (sd : SdCard)
  (fuel : nat) (st : Browser) (w : World) : option Outcome :=
  let (start, w) := millis env w in
  match splashLoop board env sd start fuel (mkSplash false false st w [] O) with
  | None => None
  | Some s =>
      let (ok, w) := sdBegin board env (hw s) in
      if negb ok then Some (Halted (screen s ++ sdFailedScreen))
      else
        match loadDirectory sd root (set_currentPath root (model s)) with
        | (false, _) => Some (Halted (screen s ++ rootFailedScreen))
        | (true, st) => Some (Started st (tick env w) (screen s))
        end
  end.

Definition setup (board : Board) (env : Env) (sd : SdCard) (fuel : nat)
  (st : Browser) (w : World) : option Outcome :=
  if negb (oledOk board) then Some (Halted [])
  else
    match splashWithLoadingBar board env sd fuel st w with
    | Some (Started st w shown) =>
        Some (Started st w (shown ++ map Shown (drawUI st)))
    | other => other
    end.

(** The inverted or filled rectangles among the effects stay inside the
    110 pixels of the bar. *)
Definition fill_in_bar (e : Effect) : Prop :=
  match e with
  | Shown (FillRect x _ w _ _) => x = barX + 1 /\ 0 <= w <= barW - 2
  | _ => True
  end.

(** The status lines the splash can print. *)
Definition status_shown (e : Effect) : Prop :=
  match e with
  | Shown (Print s) => s = lit "Loading SD..." \/ s = lit "Ready"
  | _ => True
  end.

Definition shownBy (o : Outcome) : list Effect :=
  match o with
  | Halted shown => shown
  | Started _ _ shown => shown
  end.

(** What holds of the splash between two iterations. *)
Definition splash_inv (s : Splash) : Prop :=
  state_ok (model s)
  /\ scanned s = sdOk s
  /\ scans s = (if scanned s then 1%nat else 0%nat)
  /\ Forall fill_in_bar (screen s)
  /\ Forall status_shown (screen s).

(** ** loop

    The globals of the running sketch.  An action takes the time of its
    [delay]s and of its [display.display()] calls, and one more
    hardware operation stands for its card accesses. *)

Definition BTN_SCROLL : Z := 2.
Definition BTN_ENTER : Z := 3.
Definition BTN_BACK : Z := 4.

Record Sketch : Type := mkSketch {
  browser : Browser;
  scrollButton : Button;     (* lastScrollState, lastScrollTime *)
  enterButton : Button;      (* lastEnterState, lastEnterTime *)
  backButton : Button;       (* lastBackState, lastBackTime *)
  world : World;
  drawn : list Event
}.

Definition spend (env : Env) (evs : list Event) (w : World) : World :=
  tick env
    (fold_left
       (fun w e =>
          match e with
          | Delay ms => delay env ms w
          | Present => tick env w
          | _ => w
          end) evs w).

(** [if (buttonPressed(pin, state, time)) action();] *)
Definition pollThenAct (env : Env) (fuel : nat) (pin : Z) (b : Button)
  (action : Browser -> Browser * list Event)
  (st : Browser) (w : World) (shown : list Event)
  : option (Button * Browser * World * list Event) :=
  match buttonPressed env fuel pin b w with
  | None => None
  | Some (true, b, w) =>
      let (st, evs) := action st in
      Some (b, st, spend env evs w, shown ++ evs)
  | Some (false, b, w) => Some (b, st, w, shown)
  end.

Definition loop (env : Env) (sd : SdCard) (fuel : nat) (s : Sketch)
  : option Sketch :=
  match pollThenAct env fuel BTN_SCROLL (scrollButton s) onScroll
          (browser s) (world s) (drawn s) with
  | None => None
  | Some (bs, st, w, shown) =>
      match pollThenAct env fuel BTN_ENTER (enterButton s) (onEnter sd)
              st w shown with
      | None => None
      | Some (be, st, w, shown) =>
          match pollThenAct env fuel BTN_BACK (backButton s) (onBack sd)
                  st w shown with
          | None => None
          | Some (bb, st, w, shown) => Some (mkSketch st bs be bb w shown)
          end
      end
  end.

(** [n] passes of [loop]. *)
Fixpoint loops (env : Env) (sd : SdCard) (fuel : nat) (n : nat) (s : Sketch)
  : option Sketch :=
  match n with
  | O => Some s
  | S n' =>
      match loop env sd fuel s with
      | None => None
      | Some s => loops env sd fuel n' s
      end
  end.

(** The sketch as [setup] leaves it. *)
Definition afterSetup (st : Browser) (w : World) : Sketch :=
  mkSketch st initialButton initialButton initialButton w [].

(** ** Further notions *)

(** The path begins with '/'. *)
Definition rooted (p : cstring) : bool :=
  match p with
  | c :: _ => Ascii.eqb c slash
  | [] => false
  end.

(** The text that [pathJoin] formats, before [snprintf] cuts it. *)
Definition joined (base child : cstring) : cstring :=
  if streq base root then slash :: child else base ++ slash :: child.

(** Number of inverted selection bars in a list of effects. *)
Fixpoint highlights (evs : list Event) : nat :=
  match evs with
  | [] => O
  | FillRect _ _ _ _ _ :: evs' => S (highlights evs')
  | _ :: evs' => highlights evs'
  end.

(** The indices of the logged accesses to the entry table, in order. *)
Fixpoint readIndices (evs : list Event) : list Z :=
  match evs with
  | [] => []
  | ReadEntry idx _ :: evs' => idx :: readIndices evs'
  | _ :: evs' => readIndices evs'
  end.

(** A drawn row reads its entry twice: [isDir], then [name]. *)
Fixpoint rowReads (rows : list Z) : list Z :=
  match rows with
  | [] => []
  | i :: rows' => i :: i :: rowReads rows'
  end.

(** The three buttons, and what a debounced press of each does to the
    model ([loop]). *)
Inductive Action : Type := Scroll | Enter | Back.

Definition press (sd : SdCard) (a : Action) (st : Browser) : Browser :=
  match a with
  | Scroll => fst (onScroll st)
  | Enter => fst (onEnter sd st)
  | Back => fst (onBack sd st)
  end.

Definition pressAll (sd : SdCard) (acts : list Action) (st : Browser)
  : Browser :=
  fold_left (fun s a => press sd a s) acts st.

(** ** Test data *)

Definition powerOn : Browser :=
  mkBrowser (replicate (Z.to_nat MAX_ENTRIES) blankEntry) 0 0 0 root.

Definition sevenEntries : Browser :=
  mkBrowser (replicate (Z.to_nat MAX_ENTRIES) blankEntry) 7 0 0 root.

Definition sevenDirs : list (cstring * bool) :=
  [(lit "D0", true); (lit "D1", true); (lit "D2", true); (lit "D3", true);
   (lit "D4", true); (lit "D5", true); (lit "D6", true)].

(** A card whose root lists seven directories, none of which can be
    opened. *)
Definition brokenCard : SdCard :=
  fun path => if streq path root then Directory sevenDirs else NoFile.

(** The root of [brokenCard] loaded, then Scroll pressed six times: the
    selection is on "D6", the last visible row. *)
Definition onLastDir : Browser :=
  scrollTimes 6 (snd (loadDirectory brokenCard root powerOn)).

(** A card on which every directory lists the same seven directories. *)
Definition nestedCard : SdCard := fun _ => Directory sevenDirs.


Definition twoFiles : list (cstring * bool) :=
  [(lit "a.stl", false); (lit "SUB", true)].

(** A card whose every directory lists sixty files. *)
Definition sixtyFiles : list (cstring * bool) :=
  map (fun i => (lit "PART" ++ [ascii_of_nat (48 + i / 10);
                                ascii_of_nat (48 + i mod 10)]
                   ++ lit ".STL", false))
      (seq 0 60).

Definition fullCard : SdCard := fun _ => Directory sixtyFiles.

(** A button on pin 2 held down from 100 ms to 400 ms after reset, every
    hardware operation taking 1 ms, polled forty times with 10 ms of
    other work in between. *)
Definition heldOnce : Env :=
  mkEnv (fun _ t => negb ((100 <=? t) && (t <? 400))) (fun _ => 1).

Definition fortyPolls : list Z := replicate 40 10.

(** A board whose display answers and whose card is ready 1.2 s after
    reset; the bar width grows with the elapsed time. *)
Definition slowCard : Board :=
  mkBoard true (fun t => 1200 <=? t) (fun elapsed => 110 * elapsed / 5000).

(** A valid path of 78 characters, and its parent. *)
Definition deepPath : cstring :=
  lit "/DIR00001/DIR00002/DIR00003/DIR00004/DIR00005/DIR00006/DIR00007/DIR00008/LASTX".

Definition deepParent : cstring :=
  lit "/DIR00001/DIR00002/DIR00003/DIR00004/DIR00005/DIR00006/DIR00007/DIR00008".

(** * Properties *)

(** ** Arithmetic of the machine integers *)

Lemma wrap_int_id z : int_ok z -> wrap_int z = z.
Proof.
  unfold wrap_int, int_ok, INT_MIN, INT_MAX. intros H.
  rewrite Z.mod_small; lia.
Qed.

Lemma wrap_int_ok z : int_ok (wrap_int z).
Proof.
  unfold wrap_int, int_ok, INT_MIN, INT_MAX.
  pose proof (Z.mod_pos_bound (z + 32768) 65536). lia.
Qed.

Lemma wrap_int_over z :
  INT_MAX < z <= INT_MAX + 65536 -> wrap_int z = z - 65536.
Proof.
  unfold wrap_int, INT_MAX. intros H.
  replace (z + 32768) with ((z - 65536 + 32768) + 1 * 65536) by lia.
  rewrite Z.mod_add by lia. rewrite Z.mod_small; lia.
Qed.

Ltac int_arith :=
  unfold int_ok, INT_MIN, INT_MAX, VISIBLE_ITEMS, MAX_ENTRIES in *; lia.

Ltac no_branch t :=
  lazymatch t with
  | context [if _ then _ else _] => fail
  | _ => idtac
  end.

(** Case analysis on a comparison whose operands are already decided. *)
Ltac case_cmp :=
  match goal with
  | |- context [?a <? ?b] =>
      no_branch a; no_branch b; destruct (Z.ltb_spec a b)
  | |- context [?a <=? ?b] =>
      no_branch a; no_branch b; destruct (Z.leb_spec a b)
  | |- context [?a >? ?b] =>
      no_branch a; no_branch b;
      rewrite (Z.gtb_ltb a b); destruct (Z.ltb_spec b a)
  | |- context [?a >=? ?b] =>
      no_branch a; no_branch b;
      rewrite (Z.geb_leb a b); destruct (Z.leb_spec b a)
  | |- context [?a =? ?b] =>
      no_branch a; no_branch b; destruct (Z.eqb_spec a b)
  end.

Ltac case_if :=
  match goal with
  | |- context [if ?c then _ else _] => no_branch c; destruct c eqn:?
  end.

Ltac fields :=
  cbn [entries entryCount selectionIndex scrollOffset currentPath
       set_entries set_entryCount set_selectionIndex set_scrollOffset
       set_currentPath fst snd] in *.

(** ** clampScroll *)

Lemma clampScroll_frame st :
  entries (clampScroll st) = entries st
  /\ entryCount (clampScroll st) = entryCount st
  /\ currentPath (clampScroll st) = currentPath st.
Proof.
  unfold clampScroll. repeat (case_if; fields); auto.
Qed.

Lemma clampScroll_empty st :
  entryCount st <= 0 ->
  clampScroll st = set_scrollOffset 0 (set_selectionIndex 0 st).
Proof.
  intros H. unfold clampScroll.
  destruct (Z.leb_spec (entryCount st) 0); [reflexivity | lia].
Qed.

Lemma clampScroll_fields es ec sel so p :
  0 < ec ->
  clampScroll (mkBrowser es ec sel so p)
  = mkBrowser es ec (fst (clampFields ec sel so))
      (snd (clampFields ec sel so)) p.
Proof.
  intros Hpos. unfold clampScroll, clampFields. fields.
  destruct (Z.leb_spec ec 0); [lia |].
  repeat (case_if; fields); reflexivity.
Qed.

Lemma clampFields_spec ec sel so :
  int_ok ec -> int_ok sel -> int_ok so -> 0 < ec ->
  let sel' := fst (clampFields ec sel so) in
  let so' := snd (clampFields ec sel so) in
  sel' = Z.max 0 (Z.min sel (ec - 1))
  /\ 0 <= so' <= sel'
  /\ sel' <= so' + VISIBLE_ITEMS - 1
  /\ (if ec <=? VISIBLE_ITEMS then so' = 0 else so' + VISIBLE_ITEMS <= ec)
  /\ (so + VISIBLE_ITEMS <= sel' ->
      so' = Z.min (Z.max (sel' - (VISIBLE_ITEMS - 1)) 0)
              (Z.max 0 (ec - VISIBLE_ITEMS))).
Proof.
  intros Hc Hs Ho Hpos. unfold clampFields.
  rewrite (wrap_int_id (ec - 1)) by int_arith.
  rewrite (wrap_int_id (ec - VISIBLE_ITEMS)) by int_arith.
  assert (Hsel : (if (if sel <? 0 then 0 else sel) >? ec - 1 then ec - 1
                  else if sel <? 0 then 0 else sel)
                 = Z.max 0 (Z.min sel (ec - 1))).
  { repeat case_cmp; lia. }
  rewrite Hsel. clear Hsel.
  assert (Hr : 0 <= Z.max 0 (Z.min sel (ec - 1)) <= ec - 1) by lia.
  generalize dependent (Z.max 0 (Z.min sel (ec - 1))). intros s Hr.
  rewrite (wrap_int_id (s - (VISIBLE_ITEMS - 1))) by int_arith.
  assert (Hso : exists o, (if s <? so then s else so) = o
                          /\ o <= s /\ INT_MIN <= o
                          /\ (s < so -> o = s) /\ (so <= s -> o = so)).
  { eexists; split; [reflexivity |]. case_cmp; int_arith. }
  destruct Hso as (o & -> & Hle & Hlo & Ho1 & Ho2).
  cbn [fst snd].
  destruct (Z_le_gt_dec (o + VISIBLE_ITEMS) INT_MAX).
  - rewrite (wrap_int_id (o + VISIBLE_ITEMS)) by int_arith.
    unfold VISIBLE_ITEMS in *. split; [reflexivity |].
    repeat case_cmp; lia.
  - rewrite (wrap_int_over (o + VISIBLE_ITEMS)) by int_arith.
    unfold VISIBLE_ITEMS, int_ok, INT_MAX, INT_MIN in *.
    split; [reflexivity |].
    repeat case_cmp; lia.
Qed.

Lemma clampScroll_spec st :
  int_ok (entryCount st) -> int_ok (selectionIndex st) ->
  int_ok (scrollOffset st) -> 0 < entryCount st ->
  selectionIndex (clampScroll st) = clampedSelection st
  /\ 0 <= selectionIndex (clampScroll st) < entryCount st
  /\ scroll_inv (clampScroll st).
Proof.
  intros Hc Hs Ho Hpos. unfold scroll_inv, clampedSelection.
  destruct st as [es ec sel so p]. fields.
  rewrite clampScroll_fields by assumption. fields.
  pose proof (clampFields_spec ec sel so Hc Hs Ho Hpos) as H.
  cbv zeta in H. destruct H as (H1 & H2 & H3 & H4 & _).
  repeat split; try lia; assumption.
Qed.

Lemma clampScroll_ok st : state_ok st -> state_ok (clampScroll st).
Proof.
  intros [He Hc Hs Ho Hp].
  destruct (Z_le_gt_dec (entryCount st) 0) as [Hz | Hpos].
  - rewrite clampScroll_empty by assumption.
    split; fields; try assumption; int_arith.
  - destruct (clampScroll_spec st Hc Hs Ho) as (_ & Hsel & Hinv); [lia |].
    destruct (clampScroll_frame st) as (Hes & Hec & Hcp).
    unfold scroll_inv in Hinv.
    split; rewrite ?Hes, ?Hec, ?Hcp; try assumption; int_arith.
Qed.

(** ** onScroll *)

Lemma onScroll_frame st :
  entries (fst (onScroll st)) = entries st
  /\ entryCount (fst (onScroll st)) = entryCount st
  /\ currentPath (fst (onScroll st)) = currentPath st.
Proof.
  unfold onScroll. case_if; fields; [auto |].
  match goal with |- context [clampScroll ?s] =>
    destruct (clampScroll_frame s) as (-> & -> & ->) end.
  case_if; fields; auto.
Qed.

Lemma onScroll_empty st : entryCount st <= 0 -> onScroll st = (st, []).
Proof.
  intros H. unfold onScroll.
  destruct (Z.leb_spec (entryCount st) 0); [reflexivity | lia].
Qed.

Lemma onScroll_spec st :
  state_ok st -> 0 < entryCount st ->
  state_ok (fst (onScroll st))
  /\ 0 <= selectionIndex (fst (onScroll st)) < entryCount st
  /\ scroll_inv (fst (onScroll st)).
Proof.
  intros [He Hc Hs Ho Hp] Hpos. unfold onScroll.
  destruct (Z.leb_spec (entryCount st) 0); [lia |]. fields.
  match goal with |- context [clampScroll ?s] => set (s1 := s) end.
  assert (Hec : entryCount s1 = entryCount st)
    by (subst s1; case_if; reflexivity).
  assert (Hcp : currentPath s1 = currentPath st)
    by (subst s1; case_if; reflexivity).
  assert (Hes : entries s1 = entries st)
    by (subst s1; case_if; reflexivity).
  assert (Hso : scrollOffset s1 = scrollOffset st)
    by (subst s1; case_if; reflexivity).
  assert (Hsel : int_ok (selectionIndex s1)).
  { subst s1. case_if; fields; [int_arith | apply wrap_int_ok]. }
  assert (Hok1 : state_ok s1) by (split; congruence).
  split; [apply clampScroll_ok; assumption |].
  rewrite <- Hec.
  destruct Hok1 as [_ Hc1 Hs1 Ho1 _].
  destruct (clampScroll_spec s1 Hc1 Hs1 Ho1) as (_ & H1 & H2); [lia |].
  split; assumption.
Qed.

(** The wrapping increment: on a selection inside the list, Scroll moves
    to the next entry and from the last entry back to the first. *)
Lemma onScroll_selection st :
  int_ok (entryCount st) -> int_ok (scrollOffset st) ->
  0 <= selectionIndex st < entryCount st ->
  selectionIndex (fst (onScroll st))
  = (selectionIndex st + 1) mod entryCount st.
Proof.
  intros Hc Ho Hsel. unfold onScroll.
  destruct (Z.leb_spec (entryCount st) 0); [lia |]. fields.
  rewrite (wrap_int_id (selectionIndex st + 1)) by int_arith.
  match goal with |- context [clampScroll ?s] => set (s1 := s) end.
  assert (Hec : entryCount s1 = entryCount st)
    by (subst s1; case_if; reflexivity).
  assert (Hso : scrollOffset s1 = scrollOffset st)
    by (subst s1; case_if; reflexivity).
  assert (H1 : selectionIndex s1 = (selectionIndex st + 1) mod entryCount st
               /\ 0 <= selectionIndex s1 < entryCount st).
  { subst s1. case_cmp; fields.
    - assert (selectionIndex st + 1 = entryCount st) as -> by lia.
      rewrite Z.mod_same by lia. lia.
    - rewrite Z.mod_small by lia. lia. }
  destruct H1 as (H1 & H2).
  destruct (clampScroll_spec s1) as (H3 & _);
    rewrite ?Hec, ?Hso; try assumption; try int_arith.
  rewrite H3. unfold clampedSelection. rewrite Hec. lia.
Qed.

Lemma scrollTimes_S n st :
  scrollTimes (S n) st = fst (onScroll (scrollTimes n st)).
Proof. reflexivity. Qed.

Lemma scrollTimes_ok n st :
  state_ok st -> 0 < entryCount st ->
  state_ok (scrollTimes n st)
  /\ entryCount (scrollTimes n st) = entryCount st.
Proof.
  intros Hok Hpos. induction n as [| n [IHok IHec]].
  - split; [assumption | reflexivity].
  - rewrite scrollTimes_S.
    destruct (onScroll_frame (scrollTimes n st)) as (_ & Hec & _).
    split; [| congruence].
    apply onScroll_spec; [assumption | lia].
Qed.

Lemma scrollTimes_selection n st :
  state_ok st -> 0 <= selectionIndex st < entryCount st ->
  selectionIndex (scrollTimes n st)
  = (selectionIndex st + Z.of_nat n) mod entryCount st.
Proof.
  intros Hok Hsel. induction n as [| n IH].
  - change (scrollTimes 0 st) with st. change (Z.of_nat 0) with 0.
    rewrite Z.add_0_r, Z.mod_small; lia.
  - rewrite scrollTimes_S.
    destruct (scrollTimes_ok n st Hok) as ([_ Hc _ Ho _] & Hec); [lia |].
    rewrite onScroll_selection; try assumption.
    + rewrite IH, Hec, Zplus_mod_idemp_l. f_equal. lia.
    + rewrite IH, Hec. apply Z.mod_pos_bound. lia.
Qed.

(** C2: from every state with [entryCount > 0] and after every one of
    any number of successive Scroll presses, the window encloses the
    selection ([0 <= scrollOffset <= selectionIndex <= scrollOffset +
    VISIBLE - 1]) and shows no trailing blank row ([scrollOffset +
    VISIBLE <= entryCount], or [scrollOffset = 0] when the list has at
    most VISIBLE entries). *)
Theorem onScroll_keeps_scroll_invariant (st : Browser) (n : nat) :
  state_ok st -> 0 < entryCount st ->
  scroll_inv (scrollTimes (S n) st).
Proof.
  intros Hok Hpos. rewrite scrollTimes_S.
  destruct (scrollTimes_ok n st Hok Hpos) as (Hokn & Hec).
  apply onScroll_spec; [assumption | lia].
Qed.

Ltac concrete_ok :=
  split; [vm_compute; reflexivity | | | |];
  first [vm_compute; split; discriminate | vm_compute; lia].

Lemma sevenEntries_ok : state_ok sevenEntries.
Proof. concrete_ok. Defined.

Lemma onScroll_keeps_scroll_invariant_witness :
  state_ok (set_scrollOffset 9 sevenEntries)
  /\ 0 < entryCount (set_scrollOffset 9 sevenEntries)
  /\ scroll_inv (scrollTimes 3 (set_scrollOffset 9 sevenEntries)).
Proof.
  assert (Hok : state_ok (set_scrollOffset 9 sevenEntries)).
  { concrete_ok. }
  assert (Hpos : 0 < entryCount (set_scrollOffset 9 sevenEntries))
    by (cbn; lia).
  split; [exact Hok | split; [exact Hpos |]].
  exact (onScroll_keeps_scroll_invariant _ 2 Hok Hpos).
Defined.

(** C6: Scroll is cyclic.  From every state of the directory model with
    [entryCount > 0] (so [0 <= selectionIndex < entryCount]), pressing
    Scroll [entryCount] times brings [selectionIndex] back to its
    original value. *)
Theorem onScroll_cyclic (st : Browser) :
  state_ok st -> 0 < entryCount st ->
  0 <= selectionIndex st < entryCount st ->
  selectionIndex (scrollTimes (Z.to_nat (entryCount st)) st)
  = selectionIndex st.
Proof.
  intros Hok Hpos Hsel.
  rewrite scrollTimes_selection by assumption.
  rewrite Z2Nat.id by lia.
  rewrite <- (Z.mul_1_l (entryCount st)) at 1.
  rewrite Z.mod_add by lia. apply Z.mod_small. assumption.
Qed.

Lemma onScroll_cyclic_witness :
  state_ok (set_selectionIndex 4 sevenEntries)
  /\ selectionIndex (scrollTimes 7 (set_selectionIndex 4 sevenEntries)) = 4.
Proof.
  assert (Hok : state_ok (set_selectionIndex 4 sevenEntries)).
  { concrete_ok. }
  split; [exact Hok |].
  apply (onScroll_cyclic (set_selectionIndex 4 sevenEntries) Hok);
    cbn; lia.
Defined.

(** C3: scrolling forward past the visible window pushes the selection
    to the bottom visible row.  Whenever the (clamped) selection reaches
    or passes [scrollOffset + VISIBLE], [clampScroll] leaves
    [scrollOffset = selectionIndex - (VISIBLE - 1)] clamped into
    [0, max(0, entryCount - VISIBLE)]; from a non-negative offset that
    puts the selection exactly on the last visible row.  With 7 entries,
    six Scroll presses from the top give selection 6 and offset 2, and a
    seventh wraps to selection 0 and offset 0. *)
Theorem clampScroll_pushes_selection_to_bottom (st : Browser) :
  state_ok st ->
  (scrollOffset st + VISIBLE_ITEMS <= clampedSelection st ->
   selectionIndex (clampScroll st) = clampedSelection st
   /\ scrollOffset (clampScroll st)
      = Z.min (Z.max (clampedSelection st - (VISIBLE_ITEMS - 1)) 0)
          (Z.max 0 (entryCount st - VISIBLE_ITEMS))
   /\ (0 <= scrollOffset st ->
       selectionIndex (clampScroll st)
       = scrollOffset (clampScroll st) + (VISIBLE_ITEMS - 1)))
  /\ (entryCount st = 7 -> selectionIndex st = 0 -> scrollOffset st = 0 ->
      selectionIndex (scrollTimes 6 st) = 6
      /\ scrollOffset (scrollTimes 6 st) = 2
      /\ selectionIndex (scrollTimes 7 st) = 0
      /\ scrollOffset (scrollTimes 7 st) = 0).
Proof.
  intros [He Hc Hs Ho Hp]. split.
  - intros Hpast.
    destruct (Z_le_gt_dec (entryCount st) 0) as [Hz | Hpos].
    { rewrite clampScroll_empty by assumption.
      unfold clampedSelection, VISIBLE_ITEMS in *. fields. lia. }
    apply Z.gt_lt in Hpos.
    destruct st as [es ec sel so p]. unfold clampedSelection in *. fields.
    rewrite clampScroll_fields by assumption. fields.
    pose proof (clampFields_spec ec sel so Hc Hs Ho Hpos) as H.
    cbv zeta in H. destruct H as (H1 & H2 & H3 & H4 & H5).
    rewrite H1 in *. specialize (H5 Hpast).
    split; [reflexivity |]. split; [exact H5 |].
    intros Hnn. unfold VISIBLE_ITEMS in *. lia.
  - intros Hec Hsel Hso.
    destruct st as [es ec sel so p]. fields. subst ec sel so.
    vm_compute. repeat split.
Qed.

Lemma clampScroll_pushes_selection_to_bottom_witness :
  state_ok (set_selectionIndex 6 sevenEntries)
  /\ scrollOffset (clampScroll (set_selectionIndex 6 sevenEntries)) = 2
  /\ selectionIndex (scrollTimes 7 sevenEntries) = 0.
Proof.
  assert (Hok : state_ok (set_selectionIndex 6 sevenEntries)).
  { concrete_ok. }
  split; [exact Hok |].
  destruct (clampScroll_pushes_selection_to_bottom _ Hok) as (Hgen & _).
  destruct (clampScroll_pushes_selection_to_bottom _ sevenEntries_ok)
    as (_ & Hscn).
  assert (Hpast : scrollOffset (set_selectionIndex 6 sevenEntries)
                  + VISIBLE_ITEMS
                  <= clampedSelection (set_selectionIndex 6 sevenEntries))
    by (vm_compute; discriminate).
  destruct (Hgen Hpast) as (_ & H & _).
  destruct (Hscn eq_refl eq_refl eq_refl) as (_ & _ & H' & _).
  split; [rewrite H; reflexivity | exact H'].
Defined.

(** ** Strings and paths *)

Lemma streq_eq a b : streq a b = true <-> a = b.
Proof.
  revert b. induction a as [| x a IH]; intros [| y b]; cbn; try easy.
  rewrite andb_true_iff, Ascii.eqb_eq, IH.
  split; [intros [-> ->]; reflexivity | intros [= -> ->]; auto].
Qed.

Lemma streq_neq a b : a <> b -> streq a b = false.
Proof.
  intros H. destruct (streq a b) eqn:E; [| reflexivity].
  apply streq_eq in E. contradiction.
Qed.

Lemma strrchr_absent s : has_slash s = false -> strrchr s slash = None.
Proof.
  induction s as [| x s IH]; cbn; [reflexivity |].
  intros H. apply orb_false_iff in H as [Hx Hs].
  rewrite (IH Hs), Hx. reflexivity.
Qed.

Lemma strrchr_last_slash p n :
  has_slash n = false -> strrchr (p ++ slash :: n) slash = Some (length p).
Proof.
  intros Hn. induction p as [| x p IH]; cbn.
  - rewrite (strrchr_absent n Hn). reflexivity.
  - rewrite IH. reflexivity.
Qed.

Lemma strrchr_lt s c i : strrchr s c = Some i -> (i < length s)%nat.
Proof.
  revert i. induction s as [| x s IH]; cbn; intros i; [discriminate |].
  destruct (strrchr s c) as [j |].
  - intros [= <-]. specialize (IH j eq_refl). lia.
  - destruct (Ascii.eqb x c); [intros [= <-]; lia | discriminate].
Qed.

Lemma last_app_nonempty (p q : cstring) d :
  q <> [] -> List.last (p ++ q) d = List.last q d.
Proof.
  intros Hq. induction p as [| x p IH]; [reflexivity |].
  cbn [app List.last]. destruct (p ++ q) eqn:E; [| exact IH].
  apply app_eq_nil in E as [_ ->]. contradiction.
Qed.

Lemma last_not_slash (n : cstring) d :
  n <> [] -> has_slash n = false -> Ascii.eqb (List.last n d) slash = false.
Proof.
  induction n as [| x n IH]; [contradiction |].
  intros _ H. cbn in H. apply orb_false_iff in H as [Hx Hn].
  destruct n as [| y n]; [exact Hx |].
  change (List.last (x :: y :: n) d) with (List.last (y :: n) d).
  apply IH; [discriminate | exact Hn].
Qed.

Lemma has_slash_take k n : has_slash n = false -> has_slash (take k n) = false.
Proof.
  revert k. induction n as [| x n IH]; intros [| k]; cbn; try reflexivity.
  intros H. apply orb_false_iff in H as [-> Hn]. cbn. apply IH, Hn.
Qed.

Lemma valid_path_nonempty p : valid_path p = true -> p <> [].
Proof. destruct p; [discriminate | discriminate]. Qed.

Example goParent_root : goParent root = root.
Proof. reflexivity. Qed.

Example goParent_top : goParent (lit "/a") = root.
Proof. reflexivity. Qed.

Example goParent_nested : goParent (lit "/a/b") = lit "/a".
Proof. reflexivity. Qed.

Example goParent_trailing_slash : goParent (lit "/a/b/") = lit "/a".
Proof. reflexivity. Qed.

Example pathJoin_root : pathJoin [] PATH_SIZE root (lit "A") = lit "/A".
Proof. reflexivity. Qed.

Example pathJoin_nested :
  pathJoin [] PATH_SIZE (lit "/A") (lit "b.txt") = lit "/A/b.txt".
Proof. reflexivity. Qed.

(** Ascending from [base/child] gives [base] back as long as the
    separator and something of the child survive. *)
Lemma goParent_slash_child (base child : cstring) :
  base <> [] -> child <> [] -> has_slash child = false ->
  goParent (base ++ slash :: child) = base.
Proof.
  intros Hb Hc Hs. unfold goParent.
  destruct base as [| b0 base]; [contradiction |].
  destruct child as [| c0 child]; [contradiction |].
  rewrite streq_neq.
  2:{ unfold root. cbn. destruct base; discriminate. }
  rewrite (last_app_nonempty (b0 :: base)) by discriminate.
  change (List.last (slash :: c0 :: child) "000"%char)
    with (List.last (c0 :: child) "000"%char).
  rewrite (last_not_slash (c0 :: child)) by (discriminate || assumption).
  rewrite andb_false_r.
  rewrite strrchr_last_slash by assumption.
  cbn [length]. apply (take_app_length (b0 :: base)).
Qed.

Lemma pathJoin_fits out (base child : cstring) :
  base <> root -> (length base + 2 < PATH_SIZE)%nat -> child <> [] ->
  exists k, (0 < k)%nat
            /\ pathJoin out PATH_SIZE base child = base ++ slash :: take k child.
Proof.
  intros Hr Hlen Hc. unfold pathJoin. rewrite (streq_neq _ _ Hr).
  unfold snprintf, PATH_SIZE in *.
  exists (78 - length base)%nat. split; [lia |].
  rewrite take_app_ge by lia.
  replace (79 - length base)%nat with (S (78 - length base)) by lia.
  reflexivity.
Qed.

Lemma goParent_length s : (length (goParent s) <= Nat.max 1 (length s))%nat.
Proof.
  unfold goParent. destruct (streq s root); [lia |].
  match goal with |- context [strrchr ?q slash] => set (s' := q) end.
  assert (Hs' : (length s' <= length s)%nat).
  { subst s'. case_if; [rewrite length_take |]; lia. }
  destruct (strrchr s' slash) as [[| i] |];
    rewrite ?length_take; cbn [length root]; lia.
Qed.

(** C4 (as stated) fails when the joined path does not fit the 80-byte
    buffer: from a valid 78-character path the join keeps only the
    separator, and ascending from it drops the last segment of the
    path itself.  An empty child name is lost in the same way at any
    length. *)
Lemma goParent_pathJoin_loses_segment :
  valid_path deepPath = true
  /\ deepPath <> root
  /\ has_slash (lit "SUB") = false
  /\ pathJoin [] PATH_SIZE deepPath (lit "SUB") = deepPath ++ [slash]
  /\ goParent (pathJoin [] PATH_SIZE deepPath (lit "SUB")) = deepParent
  /\ goParent (pathJoin [] PATH_SIZE deepPath (lit "SUB")) <> deepPath
  /\ valid_path (lit "/a/b") = true
  /\ goParent (pathJoin [] PATH_SIZE (lit "/a/b") []) = lit "/a".
Proof.
  repeat split; try reflexivity.
  - intros H. vm_compute in H. discriminate H.
  - intros H. vm_compute in H. discriminate H.
Qed.

(** C4 (amended): for every valid non-root path [p] of at most 77
    characters, so that the 80-byte buffer holds [p], the separator and
    at least one character of the name, and every non-empty child name
    without '/', ascending from the join of [p] and the name gives [p]
    again. *)
Theorem goParent_pathJoin (out p child : cstring) :
  valid_path p = true -> p <> root ->
  (length p + 2 < PATH_SIZE)%nat ->
  child <> [] -> has_slash child = false ->
  goParent (pathJoin out PATH_SIZE p child) = p.
Proof.
  intros Hv Hr Hlen Hc Hs.
  destruct (pathJoin_fits out p child Hr Hlen Hc) as (k & Hk & ->).
  apply goParent_slash_child.
  - apply valid_path_nonempty, Hv.
  - destruct child; [contradiction |]. destruct k; [lia | discriminate].
  - apply has_slash_take, Hs.
Qed.

Lemma goParent_pathJoin_witness :
  valid_path (lit "/MODELS/BOX") = true
  /\ goParent (pathJoin [] PATH_SIZE (lit "/MODELS/BOX") (lit "LID.STL"))
     = lit "/MODELS/BOX".
Proof.
  split; [reflexivity |].
  apply (goParent_pathJoin [] (lit "/MODELS/BOX") (lit "LID.STL")).
  - reflexivity.
  - intros H. vm_compute in H. discriminate H.
  - vm_compute. lia.
  - intros H. vm_compute in H. discriminate H.
  - reflexivity.
Defined.

(** ** loadDirectory *)

Lemma readEntries_frame files st :
  selectionIndex (readEntries files st) = selectionIndex st
  /\ scrollOffset (readEntries files st) = scrollOffset st
  /\ currentPath (readEntries files st) = currentPath st.
Proof.
  revert st. induction files as [| [nm d] files IH]; intros st;
    cbn [readEntries]; [auto |].
  case_if; [| auto].
  match goal with |- context [readEntries files ?s] =>
    destruct (IH s) as (-> & -> & ->) end.
  repeat case_if; auto.
Qed.

(** With the extension filter off, the loop appends the children, in
    enumeration order, until the table is full. *)
Lemma readEntries_spec files st :
  0 <= entryCount st <= MAX_ENTRIES ->
  length (entries st) = Z.to_nat MAX_ENTRIES ->
  entryCount (readEntries files st)
  = Z.min MAX_ENTRIES (entryCount st + Z.of_nat (length files))
  /\ length (entries (readEntries files st)) = Z.to_nat MAX_ENTRIES
  /\ take (Z.to_nat (entryCount (readEntries files st)))
       (entries (readEntries files st))
     = take (Z.to_nat (entryCount st)) (entries st)
       ++ map toEntry
            (take (Z.to_nat (MAX_ENTRIES - entryCount st)) files).
Proof.
  revert st. induction files as [| [nm d] files IH]; intros st Hc Hlen;
    cbn [readEntries].
  - rewrite take_nil. cbn [length map]. rewrite app_nil_r.
    repeat split; [lia | assumption].
  - destruct (Z.ltb_spec (entryCount st) MAX_ENTRIES) as [Hlt | Hge].
    + replace (negb d && SHOW_ONLY_STL) with false
        by (unfold SHOW_ONLY_STL; rewrite andb_false_r; reflexivity).
      destruct (IH (storeEntry nm d st)) as (H1 & H2 & H3).
      { unfold storeEntry. fields. rewrite wrap_int_id; int_arith. }
      { unfold storeEntry. fields. rewrite length_insert. assumption. }
      rewrite H3, H2, H1. clear H1 H2 H3 IH.
      unfold storeEntry. fields.
      rewrite (wrap_int_id (entryCount st + 1)) by int_arith.
      split; [cbn [length]; lia |]. split; [reflexivity |].
      replace (Z.to_nat (entryCount st + 1))
        with (S (Z.to_nat (entryCount st))) by lia.
      rewrite (take_S_r _ _ (toEntry (nm, d))).
      2:{ apply list_lookup_insert_eq. unfold MAX_ENTRIES in *. lia. }
      rewrite take_insert_ge by lia.
      replace (Z.to_nat (MAX_ENTRIES - entryCount st))
        with (S (Z.to_nat (MAX_ENTRIES - (entryCount st + 1)))) by lia.
      cbn [take map]. rewrite <- app_assoc. reflexivity.
    + assert (entryCount st = MAX_ENTRIES) as -> by lia.
      rewrite Z.sub_diag. cbn [Z.to_nat take map]. rewrite app_nil_r.
      repeat split; [lia | assumption].
Qed.

Lemma loadDirectory_result sd path st :
  loadDirectory sd path st
  = let st0 :=
      set_scrollOffset 0 (set_selectionIndex 0 (set_entryCount 0 st)) in
    match sd path with
    | Directory files => (true, clampScroll (readEntries files st0))
    | _ => (false, st0)
    end.
Proof. unfold loadDirectory. destruct (sd path); reflexivity. Qed.

Lemma loadDirectory_path sd path st :
  currentPath (snd (loadDirectory sd path st)) = currentPath st.
Proof.
  rewrite loadDirectory_result. cbv zeta.
  destruct (sd path); cbn [snd]; try reflexivity.
  destruct (clampScroll_frame
              (readEntries children
                 (set_scrollOffset 0
                    (set_selectionIndex 0 (set_entryCount 0 st)))))
    as (_ & _ & ->).
  match goal with |- context [readEntries children ?s] =>
    destruct (readEntries_frame children s) as (_ & _ & ->) end.
  reflexivity.
Qed.

(** The reset at the top of [loadDirectory] makes what the counters
    held before irrelevant. *)
Lemma loadDirectory_after_reset sd path q st :
  loadDirectory sd path
    (set_currentPath q
       (set_scrollOffset 0 (set_selectionIndex 0 (set_entryCount 0 st))))
  = loadDirectory sd path (set_currentPath q st).
Proof. destruct st. reflexivity. Qed.

(** A successful load of a directory leaves the first
    [min(50, number of children)] children in the table, the selection
    and the window at the top. *)
Lemma loadDirectory_success sd path st files :
  length (entries st) = Z.to_nat MAX_ENTRIES ->
  sd path = Directory files ->
  let st' := snd (loadDirectory sd path st) in
  fst (loadDirectory sd path st) = true
  /\ entryCount st' = Z.min MAX_ENTRIES (Z.of_nat (length files))
  /\ take (Z.to_nat (entryCount st')) (entries st')
     = map toEntry (take (Z.to_nat MAX_ENTRIES) files)
  /\ length (entries st') = Z.to_nat MAX_ENTRIES
  /\ selectionIndex st' = 0 /\ scrollOffset st' = 0.
Proof.
  intros Hlen Hsd. cbv zeta. rewrite loadDirectory_result, Hsd.
  cbv zeta. cbn [fst snd].
  set (st0 := set_scrollOffset 0
                (set_selectionIndex 0 (set_entryCount 0 st))).
  destruct (readEntries_spec files st0) as (H1 & H2 & H3);
    [subst st0; fields; int_arith | exact Hlen |].
  destruct (readEntries_frame files st0) as (H4 & H5 & _).
  destruct (clampScroll_frame (readEntries files st0)) as (-> & -> & _).
  change (entryCount st0) with 0 in *. rewrite Z.add_0_l, Z.sub_0_r in *.
  change (take (Z.to_nat 0) (entries st0)) with (@nil Entry) in H3.
  split; [reflexivity |]. split; [exact H1 |].
  split; [exact H3 |]. split; [exact H2 |].
  change (selectionIndex st0) with 0 in H4.
  change (scrollOffset st0) with 0 in H5.
  destruct (Z_le_gt_dec (entryCount (readEntries files st0)) 0) as [Hz | Hp].
  - rewrite clampScroll_empty by assumption. fields. auto.
  - destruct (clampScroll_spec (readEntries files st0)) as (Hs & _ & Hi);
      rewrite ?H1, ?H4, ?H5; try int_arith.
    unfold scroll_inv, clampedSelection in *. rewrite H4 in Hs. lia.
Qed.

Lemma powerOn_ok : state_ok powerOn.
Proof. concrete_ok. Defined.

(** C5: when the enumeration of a directory yields more than 50
    children (the extension filter is off: [SHOW_ONLY_STL = false]),
    [loadDirectory] reports success, the table holds exactly the first
    50 children in enumeration order, and the others are dropped. *)
Theorem loadDirectory_keeps_first_50
  (sd : SdCard) (path : cstring) (st : Browser) (files : list (cstring * bool)) :
  state_ok st ->
  sd path = Directory files ->
  (Z.to_nat MAX_ENTRIES < length files)%nat ->
  fst (loadDirectory sd path st) = true
  /\ entryCount (snd (loadDirectory sd path st)) = MAX_ENTRIES
  /\ entries (snd (loadDirectory sd path st))
     = map toEntry (take (Z.to_nat MAX_ENTRIES) files).
Proof.
  intros [He _ _ _ _] Hsd Hlen.
  destruct (loadDirectory_success sd path st files He Hsd)
    as (H1 & H2 & H3 & H4 & _).
  split; [exact H1 |].
  assert (Hec : entryCount (snd (loadDirectory sd path st)) = MAX_ENTRIES)
    by (rewrite H2; lia).
  split; [exact Hec |].
  rewrite <- H3, Hec. symmetry. apply take_ge. lia.
Qed.

Lemma loadDirectory_keeps_first_50_witness :
  (Z.to_nat MAX_ENTRIES < length sixtyFiles)%nat
  /\ entryCount (snd (loadDirectory fullCard (lit "/PARTS") powerOn)) = 50
  /\ entries (snd (loadDirectory fullCard (lit "/PARTS") powerOn))
     = map toEntry (take 50 sixtyFiles).
Proof.
  assert (Hlen : (Z.to_nat MAX_ENTRIES < length sixtyFiles)%nat)
    by (vm_compute; lia).
  split; [exact Hlen |].
  destruct (loadDirectory_keeps_first_50 fullCard (lit "/PARTS") powerOn
              sixtyFiles powerOn_ok eq_refl Hlen) as (_ & H2 & H3).
  split; [exact H2 | exact H3].
Defined.

(** C9: whenever [loadDirectory] reports failure -- the path cannot be
    opened, or it opens but is not a directory -- [entryCount],
    [selectionIndex] and [scrollOffset] are 0 on return: what is left
    is the empty model, not the directory loaded before. *)
Theorem loadDirectory_failure_leaves_empty_model
  (sd : SdCard) (path : cstring) (st : Browser) :
  fst (loadDirectory sd path st) = false ->
  (sd path = NoFile \/ sd path = PlainFile)
  /\ entryCount (snd (loadDirectory sd path st)) = 0
  /\ selectionIndex (snd (loadDirectory sd path st)) = 0
  /\ scrollOffset (snd (loadDirectory sd path st)) = 0.
Proof.
  rewrite loadDirectory_result. cbv zeta.
  destruct (sd path); cbn [fst snd]; intros H;
    try discriminate H; fields; auto.
Qed.

Lemma loadDirectory_fails_iff sd path st :
  fst (loadDirectory sd path st) = false
  <-> sd path = NoFile \/ sd path = PlainFile.
Proof.
  rewrite loadDirectory_result. cbv zeta.
  destruct (sd path); cbn [fst]; split; intros H; auto;
    try discriminate H; destruct H as [H | H]; discriminate H.
Qed.

Lemma loadDirectory_failure_leaves_empty_model_witness :
  entryCount onLastDir = 7
  /\ fst (loadDirectory brokenCard (lit "/D6") onLastDir) = false
  /\ entryCount (snd (loadDirectory brokenCard (lit "/D6") onLastDir)) = 0.
Proof.
  split; [reflexivity |].
  assert (H : fst (loadDirectory brokenCard (lit "/D6") onLastDir) = false)
    by reflexivity.
  split; [exact H |].
  exact (proj1 (proj2 (loadDirectory_failure_leaves_empty_model
                         brokenCard (lit "/D6") onLastDir H))).
Defined.

(** ** onBack *)

Lemma onBack_at_root sd st : currentPath st = root -> onBack sd st = (st, []).
Proof. intros H. unfold onBack. rewrite H. reflexivity. Qed.

(** C7: when Back is pressed away from the root, the controller computes
    the parent of [currentPath] and tries to load it.  If that succeeds
    the result is the loaded parent with [currentPath] set to the
    parent; if it fails, [currentPath] is forced to "/" and the root is
    loaded whatever that load returns. *)
Theorem onBack_loads_parent_or_root (sd : SdCard) (st : Browser) :
  state_ok st -> currentPath st <> root ->
  (fst (loadDirectory sd (goParent (currentPath st)) st) = true ->
   fst (onBack sd st)
   = set_currentPath (goParent (currentPath st))
       (snd (loadDirectory sd (goParent (currentPath st)) st)))
  /\ (fst (loadDirectory sd (goParent (currentPath st)) st) = false ->
      fst (onBack sd st)
      = snd (loadDirectory sd root (set_currentPath root st))
      /\ currentPath (fst (onBack sd st)) = root).
Proof.
  intros [_ _ _ _ Hp] Hr. unfold onBack.
  rewrite (streq_neq _ _ Hr). unfold strncpy_term.
  rewrite (take_ge (currentPath st)) by (unfold PATH_SIZE in *; lia).
  rewrite (take_ge (goParent (currentPath st))).
  2:{ pose proof (goParent_length (currentPath st)).
      unfold PATH_SIZE in *. lia. }
  destruct (loadDirectory sd (goParent (currentPath st)) st)
    as [[|] st'] eqn:E; cbn [fst snd]; split; intros H;
    try discriminate H; [reflexivity |].
  assert (Hst' : st' = set_scrollOffset 0
                         (set_selectionIndex 0 (set_entryCount 0 st))).
  { rewrite loadDirectory_result in E. cbv zeta in E.
    destruct (sd (goParent (currentPath st))); inversion E; reflexivity. }
  subst st'. rewrite loadDirectory_after_reset.
  split; [reflexivity | apply loadDirectory_path].
Qed.

Lemma onBack_loads_parent_or_root_witness :
  currentPath (set_currentPath (lit "/D6/X") onLastDir) <> root
  /\ currentPath (fst (onBack brokenCard
                         (set_currentPath (lit "/D6/X") onLastDir))) = root.
Proof.
  assert (Hok : state_ok (set_currentPath (lit "/D6/X") onLastDir))
    by concrete_ok.
  assert (Hr : currentPath (set_currentPath (lit "/D6/X") onLastDir) <> root)
    by (intros H; vm_compute in H; discriminate H).
  split; [exact Hr |].
  destruct (onBack_loads_parent_or_root brokenCard _ Hok Hr) as (_ & Hfail).
  exact (proj2 (Hfail eq_refl)).
Defined.

(** ** onEnter *)

Lemma onEnter_empty sd st : entryCount st <= 0 -> onEnter sd st = (st, []).
Proof.
  intros H. unfold onEnter.
  destruct (Z.leb_spec (entryCount st) 0); [reflexivity | lia].
Qed.

Lemma onEnter_file sd st :
  0 < entryCount st -> isDir (entryAt st (selectionIndex st)) = false ->
  fst (onEnter sd st) = st.
Proof.
  intros Hpos Hf. unfold onEnter.
  destruct (Z.leb_spec (entryCount st) 0); [lia |].
  rewrite Hf. reflexivity.
Qed.

(** Enter on a directory that cannot be loaded: the table and the path
    stay, the three counters are those the failed load left. *)
Lemma onEnter_failed_load sd st :
  0 < entryCount st -> isDir (entryAt st (selectionIndex st)) = true ->
  fst (loadDirectory sd
         (pathJoin [] PATH_SIZE (currentPath st)
            (name (entryAt st (selectionIndex st)))) st) = false ->
  fst (onEnter sd st)
  = set_scrollOffset 0 (set_selectionIndex 0 (set_entryCount 0 st)).
Proof.
  intros Hpos Hd Hfail. unfold onEnter.
  destruct (Z.leb_spec (entryCount st) 0); [lia |].
  rewrite Hd. revert Hfail. rewrite loadDirectory_result. cbv zeta.
  destruct (sd _); cbn [fst snd]; intros Hf;
    try discriminate Hf; reflexivity.
Qed.

(** C1 is not what the code does.  With "D6" selected on the last
    visible row (selection 6, offset 2, seven entries) and a card that
    cannot open "/D6", Enter leaves the path and the bytes of the table
    alone but returns with the selection and the offset at 0 and the
    list empty; the overlay names "D0", the entry at the reset
    selection, and the redraw after it shows no row. *)
Theorem onEnter_failed_load_resets_selection :
  entryCount onLastDir = 7
  /\ selectionIndex onLastDir = 6
  /\ scrollOffset onLastDir = 2
  /\ entryAt onLastDir 6 = mkEntry (lit "D6") true
  /\ fst (loadDirectory brokenCard
            (pathJoin [] PATH_SIZE (currentPath onLastDir) (lit "D6"))
            onLastDir) = false
  /\ currentPath (fst (onEnter brokenCard onLastDir)) = currentPath onLastDir
  /\ entries (fst (onEnter brokenCard onLastDir)) = entries onLastDir
  /\ selectionIndex (fst (onEnter brokenCard onLastDir)) = 0
  /\ scrollOffset (fst (onEnter brokenCard onLastDir)) = 0
  /\ entryCount (fst (onEnter brokenCard onLastDir)) = 0
  /\ snd (onEnter brokenCard onLastDir)
     = [ReadEntry 6 7; ReadEntry 6 7;
        ClearDisplay; SetTextColor SSD1306_WHITE; SetTextSize 1;
        SetCursor 0 0; Println (lit "Open folder failed");
        SetCursor 0 16; ReadEntry 0 0; Println (lit "D0");
        Present; Delay 800;
        ClearDisplay; SetTextSize 1; SetCursor 0 0;
        SetTextColor SSD1306_WHITE; Print (lit "SD:"); Print root;
        DrawLine 0 10 127 10 SSD1306_WHITE; Present].
Proof. repeat split. Qed.

(** ** Accesses to the entry table *)

Ltac bounds_list :=
  repeat first
    [ apply List.Forall_nil
    | apply List.Forall_cons; [first [exact I | assumption] |] ].

Lemma drawRows_in_bounds st n row y :
  0 <= scrollOffset st -> 0 <= row ->
  scrollOffset st + row + Z.of_nat n <= INT_MAX + 1 ->
  Forall read_in_bounds (drawRows st n row y).
Proof.
  intros Hso. revert row y.
  induction n as [| n IH]; intros row y Hrow Hmax; cbn [drawRows];
    [constructor |].
  rewrite (wrap_int_id (scrollOffset st + row)) by int_arith.
  case_cmp; [constructor |].
  assert (Hin : read_in_bounds
                  (ReadEntry (scrollOffset st + row) (entryCount st)))
    by (cbn; lia).
  apply Forall_app; split; [case_if; bounds_list |].
  apply Forall_app; split; [bounds_list |].
  apply Forall_app; split; [case_if; bounds_list |].
  apply IH; lia.
Qed.

Lemma drawUI_in_bounds st :
  0 <= scrollOffset st -> scrollOffset st + VISIBLE_ITEMS <= INT_MAX + 1 ->
  Forall read_in_bounds (drawUI st).
Proof.
  intros H0 Hmax. unfold drawUI.
  apply Forall_app; split; [bounds_list |].
  apply Forall_app; split; [| bounds_list].
  apply drawRows_in_bounds; unfold VISIBLE_ITEMS in *; lia.
Qed.

(** Scroll never reads outside the loaded entries. *)
Lemma onScroll_in_bounds st :
  state_ok st -> entryCount st <= MAX_ENTRIES ->
  Forall read_in_bounds (snd (onScroll st)).
Proof.
  intros Hok Hmax.
  destruct (Z_le_gt_dec (entryCount st) 0) as [Hz | Hpos].
  - rewrite onScroll_empty by assumption. constructor.
  - destruct (onScroll_spec st Hok) as (_ & Hsel & Hinv); [lia |].
    unfold onScroll in *.
    destruct (Z.leb_spec (entryCount st) 0); [lia |]. cbn [fst snd] in *.
    unfold scroll_inv in Hinv.
    apply drawUI_in_bounds; int_arith.
Qed.

(** Enter on a file reads only the selected entry, which is loaded. *)
Lemma onEnter_file_in_bounds sd st :
  0 <= scrollOffset st <= selectionIndex st ->
  selectionIndex st < entryCount st <= MAX_ENTRIES ->
  isDir (entryAt st (selectionIndex st)) = false ->
  Forall read_in_bounds (snd (onEnter sd st)).
Proof.
  intros Hso Hsel Hf. unfold onEnter.
  destruct (Z.leb_spec (entryCount st) 0); [lia |].
  rewrite Hf. cbn [snd].
  assert (Hin : read_in_bounds
                  (ReadEntry (selectionIndex st) (entryCount st)))
    by (cbn; lia).
  apply Forall_app; split; [bounds_list |].
  apply drawUI_in_bounds; int_arith.
Qed.

(** C10 is not what the code does on one path.  After the failed load
    of the scenario above, the overlay reads [entries[selectionIndex]]
    with [selectionIndex = 0] while [entryCount = 0]: an access outside
    [0, entryCount), though inside the 50 slots of the array. *)
Theorem onEnter_failed_load_reads_outside_count :
  In (ReadEntry 0 0) (snd (onEnter brokenCard onLastDir))
  /\ ~ read_in_bounds (ReadEntry 0 0)
  /\ ~ Forall read_in_bounds (snd (onEnter brokenCard onLastDir))
  /\ (0 <= 0 < MAX_ENTRIES).
Proof.
  assert (Hin : In (ReadEntry 0 0) (snd (onEnter brokenCard onLastDir))).
  { vm_compute. do 8 right. left. reflexivity. }
  assert (Hout : ~ read_in_bounds (ReadEntry 0 0)) by (cbn; lia).
  split; [exact Hin |]. split; [exact Hout |].
  split; [| unfold MAX_ENTRIES; lia].
  intros Hall. rewrite Forall_forall in Hall.
  apply Hout, Hall. apply list_elem_of_In. exact Hin.
Qed.

(** After a successful load the redraw reads only loaded entries. *)
Lemma onEnter_success_in_bounds sd st files :
  length (entries st) = Z.to_nat MAX_ENTRIES ->
  0 <= selectionIndex st < entryCount st ->
  isDir (entryAt st (selectionIndex st)) = true ->
  sd (pathJoin [] PATH_SIZE (currentPath st)
        (name (entryAt st (selectionIndex st)))) = Directory files ->
  Forall read_in_bounds (snd (onEnter sd st)).
Proof.
  intros Hlen Hsel Hd Hsd. unfold onEnter.
  destruct (Z.leb_spec (entryCount st) 0); [lia |].
  rewrite Hd.
  destruct (loadDirectory_success sd _ st files Hlen Hsd)
    as (H1 & _ & _ & _ & _ & H6).
  destruct (loadDirectory sd _ st) as [ok st'] eqn:E.
  cbn [fst snd] in *. subst ok. cbn [snd].
  assert (Hin : read_in_bounds
                  (ReadEntry (selectionIndex st) (entryCount st)))
    by (cbn; lia).
  apply Forall_app; split; [bounds_list |].
  apply drawUI_in_bounds; fields; rewrite H6; int_arith.
Qed.

(** ** The debouncer *)

Lemma app_cons_split {A} (l1 l1' l2 l2' : list A) x y :
  l1 ++ x :: l2 = l1' ++ y :: l2' ->
  (exists m, l1 = l1' ++ y :: m /\ l2' = m ++ x :: l2)
  \/ (l1 = l1' /\ x = y /\ l2 = l2')
  \/ (exists m, l1' = l1 ++ x :: m /\ l2 = m ++ y :: l2').
Proof.
  revert l1'. induction l1 as [| a l1 IH]; intros [| a' l1'] H;
    cbn in H; inversion H; subst.
  - right; left; auto.
  - right; right. exists l1'. auto.
  - left. exists l1. auto.
  - destruct (IH l1' H2) as [(m & -> & ->) | [(-> & -> & ->) | (m & -> & ->)]].
    + left. exists m. auto.
    + right; left; auto.
    + right; right. exists m. auto.
Qed.

Lemma low_not_press pin t lows :
  Forall (is_low pin) lows -> ~ In (PressDetected pin t) lows.
Proof.
  intros Hl Hin. rewrite Forall_forall in Hl.
  apply (Hl (PressDetected pin t)). apply list_elem_of_In, Hin.
Qed.

Lemma pressCount_low pin lows tr :
  Forall (is_low pin) lows -> pressCount (lows ++ tr) = pressCount tr.
Proof.
  induction 1 as [| o lows Ho _ IH]; [reflexivity |].
  destruct o; [exact IH | destruct Ho].
Qed.

Lemma debounced_held pin tr :
  debounced pin tr -> held_before_press pin tr.
Proof.
  induction 1 as [| s v tr _ IH
                  | t_r lows t tr held tau rest _ IH Htr Hheld Hlong Hlows];
    intros newer t' older E.
  - destruct newer; discriminate E.
  - destruct newer as [| o newer]; [discriminate E |].
    inversion E; subst. eapply IH. reflexivity.
  - change (Sampled pin t_r HIGH :: lows ++ PressDetected pin t :: tr)
      with ((Sampled pin t_r HIGH :: lows) ++ PressDetected pin t :: tr) in E.
    apply app_cons_split in E
      as [(m & E1 & _) | [(_ & E2 & E3) | (m & _ & E3)]].
    + exfalso. destruct newer as [| o newer]; [discriminate E1 |].
      inversion E1 as [[Ho E1']].
      apply (low_not_press pin t' lows Hlows). rewrite E1'.
      apply in_elt.
    + inversion E2; subst. exists held, tau, rest.
      split; [reflexivity |]. split; [assumption | lia].
    + eapply IH. exact E3.
Qed.

Lemma debounced_released pin tr :
  debounced pin tr -> released_after_press pin tr.
Proof.
  induction 1 as [| s v tr _ IH
                  | t_r lows t tr held tau rest _ IH Htr Hheld Hlong Hlows];
    intros newer t' older E.
  - destruct newer; discriminate E.
  - destruct newer as [| o newer]; [discriminate E |].
    inversion E; subst.
    destruct (IH newer t' older eq_refl) as (later & r & lows & -> & Hl).
    exists (Sampled pin s v :: later), r, lows. auto.
  - change (Sampled pin t_r HIGH :: lows ++ PressDetected pin t :: tr)
      with ((Sampled pin t_r HIGH :: lows) ++ PressDetected pin t :: tr) in E.
    apply app_cons_split in E
      as [(m & E1 & _) | [(E1 & _ & _) | (m & E1 & E3)]].
    + exfalso. destruct newer as [| o newer]; [discriminate E1 |].
      inversion E1 as [[Ho E1']].
      apply (low_not_press pin t' lows Hlows). rewrite E1'.
      apply in_elt.
    + exists [], t_r, lows. rewrite <- E1. auto.
    + destruct (IH m t' older E3) as (later & r & lows' & -> & Hl).
      exists ((Sampled pin t_r HIGH :: lows) ++ PressDetected pin t :: later),
        r, lows'.
      split; [| exact Hl]. rewrite E1, <- app_assoc. reflexivity.
Qed.

Lemma released_one_per_cycle pin tr :
  released_after_press pin tr -> one_press_per_cycle pin tr.
Proof.
  intros Hrel a t2 b t1 c E.
  rewrite app_comm_cons, app_assoc in E.
  destruct (Hrel _ _ _ E) as (later & r & lows & E' & Hl).
  exists r.
  apply app_cons_split in E'
    as [(m & _ & E2) | [(_ & E2 & _) | (m & _ & E2)]].
  - exfalso. apply (low_not_press pin t2 lows Hl). rewrite E2.
    apply in_elt.
  - discriminate E2.
  - rewrite E2. apply in_elt.
Qed.

Lemma ulong_elapsed a b :
  b <= a -> DEBOUNCE_MS < wrap_ulong (wrap_ulong a - wrap_ulong b) ->
  DEBOUNCE_MS < a - b.
Proof.
  unfold wrap_ulong. intros Hle H.
  rewrite Zminus_mod_idemp_l, Zminus_mod_idemp_r in H.
  assert (Hm : 0 < ULONG_MOD) by (unfold ULONG_MOD; lia).
  pose proof (Z.mod_le (a - b) ULONG_MOD). lia.
Qed.

Section Hardware.

Variable env : Env.
Variable pin : Z.
Hypothesis latency_nonneg : forall k, 0 <= latency env k.

Lemma tick_clock w : clock w <= clock (tick env w).
Proof. cbn. pose proof (latency_nonneg (opCount w)). lia. Qed.

Lemma waitRelease_trace fuel w w' :
  waitRelease env pin fuel w = Some w' ->
  clock w <= clock w'
  /\ exists t_r lows,
       trace w' = Sampled pin t_r HIGH :: lows ++ trace w
       /\ Forall (is_low pin) lows.
Proof.
  revert w. induction fuel as [| fuel IH]; intros w E; [discriminate E |].
  cbn [waitRelease digitalRead] in E.
  pose proof (latency_nonneg (opCount w)) as Hl0.
  destruct (level env pin (clock w)) eqn:Hv.
  - inversion E; subst w'; clear E. cbn [clock trace tick opCount].
    split; [lia |]. exists (clock w), []. split; [reflexivity | constructor].
  - apply IH in E as (Hc & t_r & lows & Ht & Hlows).
    cbn [clock trace tick opCount delay] in *.
    pose proof (latency_nonneg (S (opCount w))) as Hl1.
    split; [lia |].
    exists t_r, (lows ++ [Sampled pin (clock w) LOW]).
    split; [rewrite Ht, <- app_assoc; reflexivity |].
    apply Forall_app; split; [exact Hlows |].
    repeat constructor.
Qed.

(** The loop returns once the pin stays released. *)
Lemma waitRelease_returns T fuel w :
  (forall t, T <= t -> level env pin t = HIGH) ->
  (Z.to_nat (T - clock w) < fuel)%nat ->
  exists w', waitRelease env pin fuel w = Some w'.
Proof.
  intros Hrel. revert w.
  induction fuel as [| fuel IH]; intros w Hfuel; [lia |].
  cbn [waitRelease digitalRead].
  destruct (level env pin (clock w)) eqn:Hv; [eauto |].
  apply IH. cbn [clock tick delay opCount].
  pose proof (latency_nonneg (opCount w)).
  pose proof (latency_nonneg (S (opCount w))).
  destruct (Z_lt_le_dec (clock w) T) as [Hlt | Hge]; [lia |].
  rewrite (Hrel _ Hge) in Hv. discriminate Hv.
Qed.

(** While the pin reads LOW the loop does not return. *)
Lemma waitRelease_blocks fuel w :
  (forall t, clock w <= t -> level env pin t = LOW) ->
  waitRelease env pin fuel w = None.
Proof.
  revert w. induction fuel as [| fuel IH]; intros w Hlow; [reflexivity |].
  cbn [waitRelease digitalRead].
  rewrite (Hlow (clock w)) by lia. cbn [LOW].
  apply IH. intros t Ht. apply Hlow.
  cbn [clock tick delay opCount] in Ht.
  pose proof (latency_nonneg (opCount w)).
  pose proof (latency_nonneg (S (opCount w))). lia.
Qed.

(** One call of [buttonPressed]: what it adds to the trace. *)
Lemma buttonPressed_step fuel b w r b' w' :
  button_inv pin b w ->
  buttonPressed env fuel pin b w = Some (r, b', w') ->
  clock w <= clock w'
  /\ button_inv pin b' w'
  /\ ((r = false /\ exists t v, trace w' = Sampled pin t v :: trace w)
      \/ (r = true
          /\ exists t_r lows t t0 held tau rest,
               trace w'
               = Sampled pin t_r HIGH
                   :: lows ++ PressDetected pin t
                   :: Sampled pin t0 LOW :: trace w
               /\ Forall (is_low pin) lows
               /\ Sampled pin t0 LOW :: trace w
                  = held ++ Sampled pin tau LOW :: rest
               /\ Forall (is_low pin) held
               /\ DEBOUNCE_MS < t - tau
               /\ lastState b' = HIGH)).
Proof.
  intros Hinv E. unfold buttonPressed in E.
  cbn [digitalRead millis] in E.
  pose proof (latency_nonneg (opCount w)) as Hl0.
  pose proof (latency_nonneg (S (opCount w))) as Hl1.
  pose proof (latency_nonneg (S (S (opCount w)))) as Hl2.
  set (w1 := tick env (mkWorld (clock w) (opCount w)
                         (Sampled pin (clock w)
                            (level env pin (clock w)) :: trace w))) in *.
  assert (Hw1 : clock w <= clock w1) by (subst w1; cbn; lia).
  destruct (level env pin (clock w)) eqn:Hv.
  - (* released *)
    destruct (lastState b) eqn:Hls; cbn [negb Bool.eqb HIGH LOW] in E;
      inversion E; subst; clear E.
    + split; [exact Hw1 |]. split.
      * intros Hlow. rewrite Hls in Hlow. discriminate Hlow.
      * left. split; [reflexivity |]. eexists _, _. reflexivity.
    + split; [cbn; cbn in Hw1; lia |]. split.
      * intros Hlow. discriminate Hlow.
      * left. split; [reflexivity |]. eexists _, _. reflexivity.
  - (* pressed *)
    assert (Hstep :
      exists b1 w2,
        (let (b0, w0) :=
           if negb (Bool.eqb false (lastState b))
           then (mkButton false (wrap_ulong (clock w1)), tick env w1)
           else (b, w1) in
         (b0, w0)) = (b1, w2)
        /\ clock w1 <= clock w2
        /\ trace w2 = Sampled pin (clock w) LOW :: trace w
        /\ lastState b1 = LOW
        /\ exists held tau rest t0,
             trace w2 = held ++ Sampled pin tau LOW :: rest
             /\ Forall (is_low pin) held
             /\ lastTime b1 = wrap_ulong t0
             /\ tau <= t0 <= clock w2).
    { destruct (lastState b) eqn:Hls; cbn [negb Bool.eqb].
      - eexists _, _. split; [reflexivity |].
        split; [apply tick_clock |]. split; [reflexivity |].
        split; [reflexivity |].
        exists [], (clock w), (trace w), (clock w1).
        split; [reflexivity |]. split; [constructor |].
        split; [reflexivity |].
        pose proof (tick_clock w1). lia.
      - eexists _, _. split; [reflexivity |].
        split; [lia |]. split; [reflexivity |]. split; [exact Hls |].
        destruct (Hinv Hls) as (held & tau & rest & t0 & Ht & Hh & Hlt & Hr).
        exists (Sampled pin (clock w) LOW :: held), tau, rest, t0.
        split; [subst w1; cbn [trace tick]; rewrite Ht; reflexivity |].
        split; [constructor; [split; reflexivity | exact Hh] |].
        split; [exact Hlt | lia]. }
    destruct Hstep as (b1 & w2 & Hb & Hc2 & Htr2 & Hls1 & Hinv2).
    destruct (if negb (Bool.eqb false (lastState b))
              then (mkButton false (wrap_ulong (clock w1)), tick env w1)
              else (b, w1)) as [b0 w0].
    inversion Hb; subst b0 w0; clear Hb.
    cbn [Bool.eqb LOW] in E.
    pose proof (tick_clock w2) as Hc3.
    destruct (Z.gtb_spec (wrap_ulong (wrap_ulong (clock w2) - lastTime b1))
                DEBOUNCE_MS) as [Hlong | Hshort].
    + (* debounced: wait for the release *)
      destruct (waitRelease env pin fuel _) as [w5 |] eqn:Ew;
        [| discriminate E].
      inversion E; subst; clear E.
      apply waitRelease_trace in Ew as (Hc5 & t_r & lows & Ht5 & Hlows).
      cbn [clock trace] in Hc5, Ht5.
      pose proof (tick_clock w5).
      split; [lia |]. split; [intros Hlow; discriminate Hlow |].
      right. split; [reflexivity |].
      destruct Hinv2 as (held & tau & rest & t0 & Ht & Hh & Hlt & Hr).
      exists t_r, lows, (clock w2), (clock w), held, tau, rest.
      split; [cbn [trace tick]; rewrite Ht5; cbn [trace tick];
              rewrite Htr2; reflexivity |].
      split; [exact Hlows |].
      split; [rewrite <- Htr2; exact Ht |].
      split; [exact Hh |]. split; [| reflexivity].
      rewrite Hlt in Hlong.
      apply ulong_elapsed in Hlong; lia.
    + (* not yet *)
      inversion E; subst; clear E.
      split; [lia |]. split.
      * intros _.
        destruct Hinv2 as (held & tau & rest & t0 & Ht & Hh & Hlt & Hr).
        exists held, tau, rest, t0. cbn [trace tick clock] in *.
        repeat split; try assumption; lia.
      * left. split; [reflexivity |]. eexists _, _.
        cbn [trace tick]. exact Htr2.
Qed.

(** While the pin stays LOW no call reports a press: it reports none
    yet, or it does not return. *)
Lemma buttonPressed_blocks fuel b w r b' w' :
  (forall t, clock w <= t -> level env pin t = LOW) ->
  buttonPressed env fuel pin b w = Some (r, b', w') -> r = false.
Proof.
  intros Hlow E. unfold buttonPressed in E. cbn [digitalRead millis] in E.
  pose proof (latency_nonneg (opCount w)) as Hl0.
  rewrite (Hlow (clock w)) in E by lia.
  set (w1 := tick env _) in *.
  assert (Hw1 : clock w <= clock w1) by (subst w1; cbn; lia).
  destruct (if negb (Bool.eqb LOW (lastState b))
            then (mkButton LOW (wrap_ulong (clock w1)), tick env w1)
            else (b, w1)) as [b1 w2] eqn:Eb.
  assert (Hw2 : clock w1 <= clock w2).
  { destruct (negb _); inversion Eb; subst; [apply tick_clock | lia]. }
  cbn [Bool.eqb LOW] in E.
  destruct (_ >? DEBOUNCE_MS); [| inversion E; reflexivity].
  rewrite waitRelease_blocks in E; [discriminate E |].
  intros t Ht. apply Hlow. cbn [clock] in Ht.
  pose proof (tick_clock w2). lia.
Qed.

Lemma buttonPressed_returns T fuel b w :
  (forall t, T <= t -> level env pin t = HIGH) ->
  (Z.to_nat (T - clock w) < fuel)%nat ->
  exists r, buttonPressed env fuel pin b w = Some r.
Proof.
  intros Hrel Hfuel. unfold buttonPressed. cbn [digitalRead millis].
  pose proof (latency_nonneg (opCount w)) as Hl0.
  set (w1 := tick env _).
  assert (Hw1 : clock w <= clock w1) by (subst w1; cbn; lia).
  destruct (if negb (Bool.eqb (level env pin (clock w)) (lastState b))
            then (mkButton (level env pin (clock w))
                    (wrap_ulong (clock w1)), tick env w1)
            else (b, w1)) as [b1 w2] eqn:Eb.
  assert (Hw2 : clock w1 <= clock w2).
  { destruct (negb _); inversion Eb; subst;
      [apply tick_clock | lia]. }
  destruct (Bool.eqb (level env pin (clock w)) LOW); [| eauto].
  destruct (_ >? DEBOUNCE_MS); [| eauto].
  edestruct (waitRelease_returns T fuel) as (w5 & ->);
    [exact Hrel | | eauto].
  cbn [clock]. pose proof (tick_clock w2). lia.
Qed.

End Hardware.

Lemma pollButton_debounced env pin fuel gaps :
  (forall k, 0 <= latency env k) ->
  Forall (fun g => 0 <= g) gaps ->
  forall b w rs b' w',
    button_inv pin b w -> debounced pin (trace w) ->
    pollButton env fuel pin gaps b w = Some (rs, b', w') ->
    debounced pin (trace w')
    /\ (pressCount (trace w') = pressCount (trace w) + eventCount rs)%nat.
Proof.
  intros Hlat Hgaps.
  induction Hgaps as [| g gaps Hg _ IH]; intros b w rs b' w' Hinv Hdeb E;
    cbn [pollButton] in E.
  - inversion E; subst. cbn [eventCount]. split; [assumption | lia].
  - destruct (buttonPressed env fuel pin b (elapse g w))
      as [[[r b1] w1] |] eqn:E1; [| discriminate E].
    destruct (pollButton env fuel pin gaps b1 w1)
      as [[[rs1 b2] w2] |] eqn:E2; [| discriminate E].
    inversion E; subst; clear E.
    assert (Hinv0 : button_inv pin b (elapse g w)).
    { intros Hlow.
      destruct (Hinv Hlow) as (held & tau & rest & t0 & Ht & Hh & Hlt & Hr).
      exists held, tau, rest, t0. cbn [elapse trace clock].
      repeat split; try assumption; lia. }
    destruct (buttonPressed_step env pin Hlat fuel b _ r b1 w1 Hinv0 E1)
      as (_ & Hinv1 & Hshape).
    cbn [elapse trace] in Hshape.
    assert (Hdeb1 : debounced pin (trace w1)
                    /\ pressCount (trace w1)
                       = (pressCount (trace w) + eventCount [r])%nat).
    { destruct Hshape
        as [(-> & t & v & ->)
           | (-> & t_r & lows & t & t0 & held & tau & rest
              & -> & Hlows & Hsplit & Hheld & Hlong & _)].
      - split; [constructor; assumption | cbn; lia].
      - split.
        + eapply deb_press; eauto. constructor. assumption.
        + cbn [pressCount eventCount].
          rewrite (pressCount_low pin lows) by assumption.
          cbn [pressCount]. lia. }
    destruct Hdeb1 as (Hdeb1 & Hcount1).
    destruct (IH b1 w1 rs1 b' w' Hinv1 Hdeb1 E2) as (Hdeb2 & Hcount2).
    split; [exact Hdeb2 |]. rewrite Hcount2, Hcount1.
    destruct r; cbn [eventCount]; lia.
Qed.

(** C8: the debouncer over any run of polls of one button, whatever the
    pin does and however long the operations and the code between two
    polls take.  A press is detected only when the pin has read LOW at
    every sample since a sample taken at least 120 ms earlier; two
    detected presses are always separated by a HIGH sample, so one
    press-release cycle gives at most one event; after detecting a
    press the call samples LOW until the pin reads HIGH and only then
    returns; and the calls that return [true] are exactly the detected
    presses.  When the pin stays released from some time on, a call
    does return; while it stays LOW, no call returns a press. *)
Theorem buttonPressed_one_event_per_cycle (env : Env) (pin : Z) :
  (forall k, 0 <= latency env k) ->
  (forall fuel gaps t0 n0 rs b w,
     Forall (fun g => 0 <= g) gaps ->
     pollButton env fuel pin gaps initialButton (mkWorld t0 n0 [])
     = Some (rs, b, w) ->
     held_before_press pin (trace w)
     /\ one_press_per_cycle pin (trace w)
     /\ released_after_press pin (trace w)
     /\ eventCount rs = pressCount (trace w))
  /\ (forall T fuel b w,
        (forall t, T <= t -> level env pin t = HIGH) ->
        (Z.to_nat (T - clock w) < fuel)%nat ->
        exists r, buttonPressed env fuel pin b w = Some r)
  /\ (forall fuel b w r b' w',
        (forall t, clock w <= t -> level env pin t = LOW) ->
        buttonPressed env fuel pin b w = Some (r, b', w') -> r = false).
Proof.
  intros Hlat. split; [| split].
  - intros fuel gaps t0 n0 rs b w Hgaps E.
    destruct (pollButton_debounced env pin fuel gaps Hlat Hgaps
                initialButton (mkWorld t0 n0 []) rs b w) as (Hdeb & Hcount).
    + intros Hlow. discriminate Hlow.
    + constructor.
    + exact E.
    + split; [apply debounced_held, Hdeb |].
      split; [apply released_one_per_cycle, debounced_released, Hdeb |].
      split; [apply debounced_released, Hdeb |].
      cbn [trace pressCount] in Hcount. lia.
  - intros T fuel b w. apply buttonPressed_returns, Hlat.
  - intros fuel b w r b' w'. apply buttonPressed_blocks, Hlat.
Qed.

Lemma buttonPressed_one_event_per_cycle_witness :
  (forall k, 0 <= latency heldOnce k)
  /\ exists rs b w,
       pollButton heldOnce 100 2 fortyPolls initialButton (mkWorld 0 0 [])
       = Some (rs, b, w)
       /\ eventCount rs = 1%nat
       /\ held_before_press 2 (trace w)
       /\ one_press_per_cycle 2 (trace w).
Proof.
  assert (Hlat : forall k, 0 <= latency heldOnce k) by (intros k; cbn; lia).
  split; [exact Hlat |].
  assert (Hgaps : Forall (fun g => 0 <= g) fortyPolls).
  { unfold fortyPolls. apply Forall_replicate. lia. }
  assert (E : exists rs b w,
             pollButton heldOnce 100 2 fortyPolls initialButton
               (mkWorld 0 0 []) = Some (rs, b, w)
             /\ eventCount rs = 1%nat).
  { vm_compute. eexists _, _, _. split; reflexivity. }
  destruct E as (rs & b & w & E & Hone).
  exists rs, b, w. split; [exact E |]. split; [exact Hone |].
  destruct (buttonPressed_one_event_per_cycle heldOnce 2 Hlat) as (Hrun & _).
  destruct (Hrun 100%nat fortyPolls 0 O rs b w Hgaps E) as (H1 & H2 & _).
  split; [exact H1 | exact H2].
Defined.

(** ** The model between two actions *)

Lemma model_inv_set_path p st :
  (length p < PATH_SIZE)%nat -> model_inv st ->
  model_inv (set_currentPath p st).
Proof.
  intros Hp ([He Hc Hs Ho _] & Hrange & Hsel & Hz).
  split; [split; assumption |]. auto.
Qed.

Lemma loadDirectory_inv sd path st :
  state_ok st -> model_inv (snd (loadDirectory sd path st)).
Proof.
  intros [He Hc Hs Ho Hp].
  assert (Hpath := loadDirectory_path sd path st).
  destruct (sd path) as [| | files] eqn:Hsd.
  - rewrite loadDirectory_result, Hsd in *. cbv zeta in *. cbn [snd] in *.
    split; [split; fields; try assumption; int_arith |].
    fields. unfold MAX_ENTRIES. repeat split; lia.
  - rewrite loadDirectory_result, Hsd in *. cbv zeta in *. cbn [snd] in *.
    split; [split; fields; try assumption; int_arith |].
    fields. unfold MAX_ENTRIES. repeat split; lia.
  - destruct (loadDirectory_success sd path st files He Hsd)
      as (_ & H2 & _ & H4 & H5 & H6).
    set (st' := snd (loadDirectory sd path st)) in *.
    assert (Hrange : 0 <= entryCount st' <= MAX_ENTRIES)
      by (rewrite H2; unfold MAX_ENTRIES; lia).
    split.
    { split; rewrite ?Hpath, ?H5, ?H6; try assumption; int_arith. }
    split; [exact Hrange |]. unfold scroll_inv. rewrite H5, H6.
    split; [| auto]. intros Hpos. unfold VISIBLE_ITEMS.
    split; [lia |]. split; [lia |]. split; [lia |].
    case_cmp; lia.
Qed.

Lemma onScroll_inv st : model_inv st -> model_inv (fst (onScroll st)).
Proof.
  intros Hinv. pose proof Hinv as (Hok & Hrange & Hsel & Hz).
  destruct (Z_le_gt_dec (entryCount st) 0) as [Hle | Hpos].
  - rewrite onScroll_empty by assumption. exact Hinv.
  - destruct (onScroll_spec st Hok) as (Hok' & Hsel' & Hinv'); [lia |].
    destruct (onScroll_frame st) as (_ & Hec & _).
    split; [exact Hok' |]. rewrite Hec.
    split; [exact Hrange |]. split; [auto | lia].
Qed.

Lemma take_path_fits (p : cstring) :
  (length (strncpy_term (PATH_SIZE - 1) p) < PATH_SIZE)%nat.
Proof.
  unfold strncpy_term, PATH_SIZE. rewrite length_take. lia.
Qed.

Lemma onEnter_inv sd st : model_inv st -> model_inv (fst (onEnter sd st)).
Proof.
  intros Hinv. pose proof Hinv as (Hok & _). unfold onEnter.
  case_if; [exact Hinv |]. case_if; [| exact Hinv].
  match goal with |- context [loadDirectory sd ?q st] =>
    pose proof (loadDirectory_inv sd q st Hok) as Hl;
    destruct (loadDirectory sd q st) as [[|] st'] end;
    cbn [fst snd] in *; [| exact Hl].
  apply model_inv_set_path; [apply take_path_fits | exact Hl].
Qed.

Lemma onBack_inv sd st : model_inv st -> model_inv (fst (onBack sd st)).
Proof.
  intros Hinv. pose proof Hinv as (Hok & _). unfold onBack.
  case_if; [exact Hinv |].
  match goal with |- context [loadDirectory sd ?q st] =>
    pose proof (loadDirectory_inv sd q st Hok) as Hl;
    destruct (loadDirectory sd q st) as [[|] st'] end;
    cbn [fst snd] in *.
  - apply model_inv_set_path; [apply take_path_fits | exact Hl].
  - apply loadDirectory_inv.
    apply (model_inv_set_path root) in Hl; [apply Hl |].
    unfold PATH_SIZE. cbn. lia.
Qed.

(** Between two actions the selection is an index of a loaded entry
    (or 0 when there is none) and the window encloses it. *)
Lemma reachable_inv sd st : reachable sd st -> model_inv st.
Proof.
  induction 1 as [st Hok | st _ IH | st _ IH | st _ IH].
  - apply loadDirectory_inv.
    destruct Hok as [He Hc Hs Ho _]. split; try assumption.
    unfold PATH_SIZE. cbn. lia.
  - apply onScroll_inv, IH.
  - apply onEnter_inv, IH.
  - apply onBack_inv, IH.
Qed.

(** Hence Scroll is cyclic on every state the sketch reaches. *)
Lemma reachable_scroll_cycle sd st :
  reachable sd st -> 0 < entryCount st ->
  selectionIndex (scrollTimes (Z.to_nat (entryCount st)) st)
  = selectionIndex st.
Proof.
  intros Hr Hpos. destruct (reachable_inv sd st Hr) as (Hok & _ & Hsel & _).
  rewrite scrollTimes_selection; [| exact Hok | apply Hsel, Hpos].
  rewrite Z2Nat.id by lia.
  rewrite <- (Z.mul_1_l (entryCount st)) at 1.
  rewrite Z.mod_add by lia. apply Z.mod_small, Hsel, Hpos.
Qed.

(** * Further properties of the sketch *)

(** ** endsWithSTL *)

(** X1: [endsWithSTL] accepts exactly the names whose last four characters
    are a dot followed by "stl" in any mix of cases; what comes before
    does not matter, and names of fewer than four characters are
    refused. *)
Theorem endsWithSTL_iff (s : cstring) :
  endsWithSTL s = true
  <-> exists pre e1 e2 e3,
        s = pre ++ ["."%char; e1; e2; e3]
        /\ (e1 = "s"%char \/ e1 = "S"%char)
        /\ (e2 = "t"%char \/ e2 = "T"%char)
        /\ (e3 = "l"%char \/ e3 = "L"%char).
Proof.
  unfold endsWithSTL. split.
  - destruct (Nat.ltb_spec (length s) 4) as [| Hlen]; [discriminate |].
    destruct (drop (length s - 4) s) as [| e0 [| e1 [| e2 [| e3 [| ? ?]]]]]
      eqn:E; try discriminate.
    intros H.
    apply andb_true_iff in H as [H H3]. apply andb_true_iff in H as [H H2].
    apply andb_true_iff in H as [H0 H1].
    apply Ascii.eqb_eq in H0. subst e0.
    exists (take (length s - 4) s), e1, e2, e3.
    split; [rewrite <- E; symmetry; apply take_drop |].
    rewrite !orb_true_iff, !Ascii.eqb_eq in *. auto.
  - intros (pre & e1 & e2 & e3 & -> & H1 & H2 & H3).
    rewrite length_app. cbn [length].
    destruct (Nat.ltb_spec (length pre + 4) 4) as [| _]; [lia |].
    replace (length pre + 4 - 4)%nat with (length pre) by lia.
    rewrite drop_app_length.
    destruct H1 as [-> | ->], H2 as [-> | ->], H3 as [-> | ->];
      reflexivity.
Qed.

Lemma endsWithSTL_iff_witness :
  endsWithSTL (lit "bracket.StL") = true
  /\ exists pre e1 e2 e3,
       lit "bracket.StL" = pre ++ ["."%char; e1; e2; e3].
Proof.
  split; [reflexivity |].
  destruct (proj1 (endsWithSTL_iff (lit "bracket.StL")) eq_refl)
    as (pre & e1 & e2 & e3 & H & _).
  exists pre, e1, e2, e3. exact H.
Defined.

(** ** goParent and pathJoin *)

Lemma strrchr_split s c i :
  strrchr s c = Some i -> s = take i s ++ c :: drop (S i) s.
Proof.
  revert i. induction s as [| x s IH]; cbn [strrchr]; intros i;
    [discriminate |].
  destruct (strrchr s c) as [j |].
  - intros [= <-]. change (x :: s = x :: (take j s ++ c :: drop (S j) s)).
    f_equal. apply IH. reflexivity.
  - destruct (Ascii.eqb x c) eqn:Ex; [| discriminate].
    intros [= <-]. apply Ascii.eqb_eq in Ex. subst x. reflexivity.
Qed.

Lemma strrchr_present s c :
  existsb (fun x => Ascii.eqb x c) s = true ->
  exists i, strrchr s c = Some i.
Proof.
  induction s as [| x s IH]; cbn; [discriminate |].
  destruct (strrchr s c); [eauto |].
  destruct (Ascii.eqb x c); [eauto |]. cbn. intros H.
  destruct (IH H) as [i Hi]. discriminate Hi.
Qed.

Lemma rooted_inv p : rooted p = true -> exists r, p = slash :: r.
Proof.
  destruct p as [| c r]; [discriminate |]. cbn.
  intros H. apply Ascii.eqb_eq in H. subst c. eauto.
Qed.

Lemma rooted_take n p : rooted p = true -> rooted (take (S n) p) = true.
Proof. destruct p; [discriminate | exact id]. Qed.

(** One step up from a rooted path other than "/". *)
Lemma goParent_step p :
  rooted p = true -> p <> root ->
  rooted (goParent p) = true
  /\ goParent p `prefix_of` p
  /\ (length (goParent p) < length p)%nat.
Proof.
  intros Hr Hne. destruct (rooted_inv p Hr) as (r & ->).
  destruct r as [| c r]; [contradiction |].
  unfold goParent. rewrite (streq_neq _ _ Hne).
  set (p := slash :: c :: r) in *.
  match goal with |- context [strrchr ?q slash] => set (p' := q) end.
  assert (Hp' : rooted p' = true /\ p' `prefix_of` p
                /\ (length p' <= length p)%nat).
  { subst p'. case_if.
    - split; [reflexivity |]. split; [apply prefix_take |].
      rewrite length_take. lia.
    - split; [reflexivity |]. split; [reflexivity | lia]. }
  destruct Hp' as (Hr' & Hpre & Hlen).
  destruct (rooted_inv p' Hr') as (r' & Er').
  destruct (strrchr_present p' slash) as (i & Hi).
  { rewrite Er'. reflexivity. }
  rewrite Hi. pose proof (strrchr_lt _ _ _ Hi) as Hlt.
  assert (Hlong : (1 < length p)%nat) by (subst p; cbn; lia).
  destruct i as [| i].
  - rewrite Er'. change (take 1 (slash :: r')) with [slash].
    split; [reflexivity |].
    split; [exists (c :: r); reflexivity | cbn [length]; lia].
  - split; [apply rooted_take, Hr' |].
    split; [etransitivity; [apply prefix_take | exact Hpre] |].
    rewrite length_take. lia.
Qed.

Lemma goParent_rooted p : rooted p = true -> rooted (goParent p) = true.
Proof.
  intros Hr. destruct (streq p root) eqn:E.
  - apply streq_eq in E. subst p. reflexivity.
  - apply goParent_step; [exact Hr |].
    intros ->. cbn in E. discriminate E.
Qed.

(** X2: ascending from a rooted path other than "/" gives a rooted, strictly
    shorter prefix of it: [goParent] never leaves the tree and never
    moves sideways or down. *)
Theorem goParent_ascends (p : cstring) :
  rooted p = true -> p <> root ->
  rooted (goParent p) = true
  /\ goParent p `prefix_of` p
  /\ (length (goParent p) < length p)%nat.
Proof. apply goParent_step. Qed.

Lemma goParent_ascends_witness :
  rooted (lit "/A/B/") = true
  /\ goParent (lit "/A/B/") `prefix_of` lit "/A/B/".
Proof.
  split; [reflexivity |].
  apply (goParent_ascends (lit "/A/B/")); [reflexivity |].
  intros H. vm_compute in H. discriminate H.
Defined.

Lemma iter_goParent_root n : Nat.iter n goParent root = root.
Proof.
  induction n as [| n IH]; [reflexivity |].
  change (Nat.iter (S n) goParent root)
    with (goParent (Nat.iter n goParent root)).
  rewrite IH. reflexivity.
Qed.

Lemma iter_goParent_reaches_root n p :
  rooted p = true -> (length p <= S n)%nat -> Nat.iter n goParent p = root.
Proof.
  revert p. induction n as [| n IH]; intros p Hr Hlen.
  - destruct (rooted_inv p Hr) as (r & ->).
    destruct r; [reflexivity | cbn in Hlen; lia].
  - rewrite Nat.iter_succ_r.
    destruct (streq p root) eqn:E.
    + apply streq_eq in E. subst p.
      change (goParent root) with root. apply iter_goParent_root.
    + destruct (goParent_step p Hr) as (Hr' & _ & Hlt).
      { intros ->. cbn in E. discriminate E. }
      apply IH; [exact Hr' | lia].
Qed.

(** X3: ascending often enough always ends at the root: from a rooted path
    of [n] characters, [n] steps up (or more) give "/". *)
Theorem goParent_reaches_root (p : cstring) (n : nat) :
  rooted p = true -> (length p <= n)%nat ->
  Nat.iter n goParent p = root.
Proof.
  intros Hr Hlen. apply iter_goParent_reaches_root; [exact Hr | lia].
Qed.

Lemma goParent_reaches_root_witness :
  rooted deepPath = true
  /\ Nat.iter 78 goParent deepPath = root.
Proof.
  split; [reflexivity |].
  apply (goParent_reaches_root deepPath 78); [reflexivity |].
  vm_compute. lia.
Defined.

Lemma segments_last r f d :
  segments r f = true -> r <> [] ->
  Ascii.eqb (List.last r d) slash = false.
Proof.
  revert f. induction r as [| c r IH]; intros f Hs Hne; [contradiction |].
  destruct r as [| c' r].
  - cbn in *. destruct (Ascii.eqb c slash); [| reflexivity].
    rewrite andb_false_r in Hs. discriminate Hs.
  - change (List.last (c :: c' :: r) d) with (List.last (c' :: r) d).
    cbn [segments] in Hs. destruct (Ascii.eqb c slash).
    + apply andb_true_iff in Hs as [_ Hs]. eapply IH; [exact Hs | discriminate].
    + eapply IH; [exact Hs | discriminate].
Qed.

Lemma segments_before_slash a n f :
  segments (a ++ slash :: n) f = true -> segments a f = true.
Proof.
  revert f. induction a as [| c a IH]; intros f; cbn [app segments].
  - change (Ascii.eqb slash slash) with true. cbv iota.
    intros H. apply andb_true_iff in H as [H _]. exact H.
  - destruct (Ascii.eqb c slash).
    + intros H. apply andb_true_iff in H as [-> H]. apply IH, H.
    + apply IH.
Qed.

Lemma segments_name n :
  has_slash n = false -> segments n false = true.
Proof.
  induction n as [| c n IH]; [reflexivity |]. cbn.
  intros H. apply orb_false_iff in H as [-> H]. apply IH, H.
Qed.

Lemma segments_after_slash a n f :
  segments a f = true -> n <> [] -> has_slash n = false ->
  segments (a ++ slash :: n) f = true.
Proof.
  intros Ha Hn Hs. revert f Ha.
  induction a as [| c a IH]; intros f Ha; cbn [app segments] in *.
  - change (Ascii.eqb slash slash) with true. cbv iota. rewrite Ha.
    destruct n as [| c n]; [contradiction |]. cbn in *.
    apply orb_false_iff in Hs as [-> Hs]. apply segments_name, Hs.
  - destruct (Ascii.eqb c slash).
    + apply andb_true_iff in Ha as [-> Ha]. apply IH, Ha.
    + apply IH, Ha.
Qed.

(** X4: the parent of a valid path is a valid path. *)
Theorem goParent_valid (p : cstring) :
  valid_path p = true -> valid_path (goParent p) = true.
Proof.
  intros Hv. destruct p as [| c r]; [discriminate |].
  cbn [valid_path] in Hv.
  apply andb_true_iff in Hv as [Hv Hseg].
  apply andb_true_iff in Hv as [Hc Hlen].
  apply Ascii.eqb_eq in Hc. subst c.
  destruct r as [| c r]; [reflexivity |].
  unfold goParent. rewrite streq_neq by discriminate.
  change (List.last (slash :: c :: r) "000"%char)
    with (List.last (c :: r) "000"%char).
  rewrite (segments_last (c :: r) true) by (assumption || discriminate).
  rewrite andb_false_r.
  destruct (strrchr (slash :: c :: r) slash) as [[| i] |] eqn:E;
    try reflexivity.
  pose proof (strrchr_split _ _ _ E) as Hsplit.
  pose proof (strrchr_lt _ _ _ E) as Hlt.
  change (take (S i) (slash :: c :: r)) with (slash :: take i (c :: r)) in *.
  change (drop (S (S i)) (slash :: c :: r)) with (drop (S i) (c :: r)) in *.
  injection Hsplit as Hsplit.
  cbn [valid_path]. change (Ascii.eqb slash slash) with true.
  apply Nat.ltb_lt in Hlen.
  assert (Hlen' : (length (slash :: take i (c :: r)) <? PATH_SIZE)%nat = true).
  { apply Nat.ltb_lt. cbn [length] in *. rewrite length_take. lia. }
  rewrite Hlen'. cbn [andb].
  destruct (take i (c :: r)) as [| c' r'] eqn:Et; [reflexivity |].
  rewrite Hsplit in Hseg. apply segments_before_slash in Hseg. exact Hseg.
Qed.

Lemma goParent_valid_witness :
  valid_path deepPath = true /\ valid_path (goParent deepPath) = true.
Proof.
  split; [reflexivity |]. apply (goParent_valid deepPath). reflexivity.
Defined.

(** X5: when the joined text fits the 80-byte buffer, [pathJoin] is exact
    -- the child appended after a single '/', none doubled after the
    root -- and joining a valid path with a non-empty name without '/'
    gives a valid path. *)
Theorem pathJoin_valid (out base child : cstring) :
  valid_path base = true ->
  child <> [] -> has_slash child = false ->
  (length (joined base child) < PATH_SIZE)%nat ->
  pathJoin out PATH_SIZE base child = joined base child
  /\ valid_path (pathJoin out PATH_SIZE base child) = true.
Proof.
  intros Hv Hc Hs Hlen.
  assert (Hj : pathJoin out PATH_SIZE base child = joined base child).
  { unfold pathJoin, joined in *. unfold snprintf, PATH_SIZE in *.
    destruct (streq base root); apply take_ge; lia. }
  split; [exact Hj |]. rewrite Hj. unfold joined in *.
  destruct (streq base root) eqn:E.
  - cbn [valid_path]. change (Ascii.eqb slash slash) with true.
    apply Nat.ltb_lt in Hlen. rewrite Hlen. cbn [andb].
    destruct child as [| c child]; [contradiction |].
    cbn in Hs |- *. apply orb_false_iff in Hs as [-> Hs].
    apply segments_name, Hs.
  - destruct base as [| b r]; [discriminate |].
    cbn [valid_path] in Hv.
    apply andb_true_iff in Hv as [Hv Hseg].
    apply andb_true_iff in Hv as [Hb _].
    destruct r as [| c r];
      [apply Ascii.eqb_eq in Hb; subst b; discriminate E |].
    cbn [app valid_path]. rewrite Hb.
    apply Nat.ltb_lt in Hlen. cbn [app] in Hlen. rewrite Hlen. cbn [andb].
    apply (segments_after_slash (c :: r)); assumption.
Qed.

Lemma pathJoin_valid_witness :
  valid_path (lit "/MODELS") = true
  /\ pathJoin [] PATH_SIZE (lit "/MODELS") (lit "BOX") = lit "/MODELS/BOX"
  /\ valid_path (pathJoin [] PATH_SIZE root (lit "MODELS")) = true.
Proof.
  split; [reflexivity |]. split.
  - apply (pathJoin_valid [] (lit "/MODELS") (lit "BOX")); try reflexivity.
    + intros H. discriminate H.
    + vm_compute. lia.
  - apply (pathJoin_valid [] root (lit "MODELS")); try reflexivity.
    + intros H. discriminate H.
    + vm_compute. lia.
Defined.

(** ** loadDirectory: the whole table *)

Lemma readEntries_count_mono files st :
  0 <= entryCount st <= MAX_ENTRIES ->
  entryCount st <= entryCount (readEntries files st) <= MAX_ENTRIES.
Proof.
  revert st. induction files as [| [nm d] files IH]; intros st Hc;
    cbn [readEntries]; [lia |].
  destruct (Z.ltb_spec (entryCount st) MAX_ENTRIES) as [Hlt | Hge]; [| lia].
  replace (negb d && SHOW_ONLY_STL) with false
    by (unfold SHOW_ONLY_STL; rewrite andb_false_r; reflexivity).
  assert (Hs : entryCount (storeEntry nm d st) = entryCount st + 1).
  { unfold storeEntry. fields. apply wrap_int_id. int_arith. }
  specialize (IH (storeEntry nm d st)). rewrite Hs in IH. lia.
Qed.

(** The loop writes only below the count it ends with. *)
Lemma readEntries_tail files st k :
  0 <= entryCount st <= MAX_ENTRIES ->
  (Z.to_nat (entryCount (readEntries files st)) <= k)%nat ->
  drop k (entries (readEntries files st)) = drop k (entries st).
Proof.
  revert st. induction files as [| [nm d] files IH]; intros st Hc Hk;
    cbn [readEntries] in *; [reflexivity |].
  destruct (Z.ltb_spec (entryCount st) MAX_ENTRIES) as [Hlt | Hge];
    [| reflexivity].
  replace (negb d && SHOW_ONLY_STL) with false in *
    by (unfold SHOW_ONLY_STL; rewrite andb_false_r; reflexivity).
  assert (Hc1 : 0 <= entryCount (storeEntry nm d st) <= MAX_ENTRIES).
  { unfold storeEntry. fields. rewrite wrap_int_id; int_arith. }
  pose proof (readEntries_count_mono files _ Hc1) as Hmono.
  assert (Hs : entryCount (storeEntry nm d st) = entryCount st + 1).
  { unfold storeEntry. fields. apply wrap_int_id. int_arith. }
  rewrite Hs in Hmono.
  rewrite IH by assumption.
  unfold storeEntry. fields.
  apply drop_insert_lt. lia.
Qed.

Lemma loadDirectory_entries sd path st files :
  length (entries st) = Z.to_nat MAX_ENTRIES ->
  sd path = Directory files ->
  entries (snd (loadDirectory sd path st))
  = map toEntry (take (Z.to_nat MAX_ENTRIES) files)
    ++ drop (Z.to_nat (Z.min MAX_ENTRIES (Z.of_nat (length files))))
         (entries st).
Proof.
  intros Hlen Hsd.
  destruct (loadDirectory_success sd path st files Hlen Hsd)
    as (_ & H2 & H3 & _).
  rewrite <- H3, <- H2.
  rewrite <- (take_drop (Z.to_nat (entryCount (snd (loadDirectory sd path st))))
                (entries (snd (loadDirectory sd path st)))) at 1.
  f_equal.
  rewrite loadDirectory_result, Hsd. cbv zeta. cbn [snd].
  set (st0 := set_scrollOffset 0
                (set_selectionIndex 0 (set_entryCount 0 st))).
  destruct (clampScroll_frame (readEntries files st0)) as (-> & -> & _).
  apply (readEntries_tail files st0); [subst st0; fields; int_arith | lia].
Qed.

(** X6: what a successful load leaves in the table, for a directory of any
    size: the first [min(50, n)] slots hold the children in enumeration
    order, and the slots after them are not touched -- they keep what
    an earlier, longer listing left there.  An empty directory loads
    with success and count 0. *)
Theorem loadDirectory_listing
  (sd : SdCard) (path : cstring) (st : Browser) (files : list (cstring * bool)) :
  state_ok st ->
  sd path = Directory files ->
  fst (loadDirectory sd path st) = true
  /\ entryCount (snd (loadDirectory sd path st))
     = Z.min MAX_ENTRIES (Z.of_nat (length files))
  /\ entries (snd (loadDirectory sd path st))
     = map toEntry (take (Z.to_nat MAX_ENTRIES) files)
       ++ drop (Z.to_nat (Z.min MAX_ENTRIES (Z.of_nat (length files))))
            (entries st)
  /\ selectionIndex (snd (loadDirectory sd path st)) = 0
  /\ scrollOffset (snd (loadDirectory sd path st)) = 0.
Proof.
  intros [He _ _ _ _] Hsd.
  destruct (loadDirectory_success sd path st files He Hsd)
    as (H1 & H2 & _ & _ & H5 & H6).
  split; [exact H1 |]. split; [exact H2 |].
  split; [apply loadDirectory_entries; assumption | auto].
Qed.

Lemma loadDirectory_listing_witness :
  state_ok onLastDir
  /\ entryCount (snd (loadDirectory (fun _ => Directory twoFiles)
                        (lit "/D6") onLastDir)) = 2
  /\ entries (snd (loadDirectory (fun _ => Directory twoFiles)
                     (lit "/D6") onLastDir))
     = map toEntry twoFiles ++ drop 2 (entries onLastDir).
Proof.
  assert (Hok : state_ok onLastDir) by concrete_ok.
  split; [exact Hok |].
  destruct (loadDirectory_listing (fun _ => Directory twoFiles)
              (lit "/D6") onLastDir twoFiles Hok eq_refl)
    as (_ & H2 & H3 & _).
  split; [exact H2 | exact H3].
Defined.

Lemma browser_eq (a b : Browser) :
  entries a = entries b -> entryCount a = entryCount b ->
  selectionIndex a = selectionIndex b -> scrollOffset a = scrollOffset b ->
  currentPath a = currentPath b -> a = b.
Proof. destruct a, b. cbn. intros. subst. reflexivity. Qed.

(** X7: loading the same path twice in a row gives what loading it once
    gives: the result does not depend on what the counters or the
    loaded slots held before. *)
Theorem loadDirectory_idempotent (sd : SdCard) (path : cstring) (st : Browser) :
  state_ok st ->
  loadDirectory sd path (snd (loadDirectory sd path st))
  = loadDirectory sd path st.
Proof.
  intros Hok. pose proof Hok as [He _ _ _ _].
  destruct (sd path) as [| | files] eqn:Hsd.
  - rewrite !loadDirectory_result, Hsd. cbv zeta. cbn [snd].
    destruct st. reflexivity.
  - rewrite !loadDirectory_result, Hsd. cbv zeta. cbn [snd].
    destruct st. reflexivity.
  - set (st1 := snd (loadDirectory sd path st)).
    destruct (loadDirectory_success sd path st files He Hsd)
      as (H1 & H2 & _ & H4 & H5 & H6).
    fold st1 in H2, H4, H5, H6.
    destruct (loadDirectory_success sd path st1 files H4 Hsd)
      as (H1' & H2' & _ & _ & H5' & H6').
    rewrite (surjective_pairing (loadDirectory sd path st1)).
    rewrite (surjective_pairing (loadDirectory sd path st)).
    rewrite H1, H1'. f_equal. fold st1.
    apply browser_eq; try congruence.
    + rewrite (loadDirectory_entries sd path st1 files H4 Hsd).
      unfold st1.
      rewrite !(loadDirectory_entries sd path st files He Hsd).
      f_equal. rewrite drop_app_length'; [reflexivity |].
      rewrite length_map, length_take. unfold MAX_ENTRIES. lia.
    + rewrite !loadDirectory_path. reflexivity.
Qed.

Lemma loadDirectory_idempotent_witness :
  state_ok onLastDir
  /\ loadDirectory brokenCard root
       (snd (loadDirectory brokenCard root onLastDir))
     = loadDirectory brokenCard root onLastDir.
Proof.
  assert (Hok : state_ok onLastDir) by concrete_ok.
  split; [exact Hok |].
  exact (loadDirectory_idempotent brokenCard root onLastDir Hok).
Defined.

(** ** Scrolling, one press at a time *)

(** [clampScroll] on a selection that is already an index of the list
    and a window that already ends inside the list: only the window
    moves, and only as far as needed. *)
Lemma clampFields_window ec s so :
  int_ok ec -> 0 <= s < ec -> 0 <= so <= Z.max 0 (ec - VISIBLE_ITEMS) ->
  clampFields ec s so
  = (s, if s <? so then s
        else if so + VISIBLE_ITEMS <=? s then s - (VISIBLE_ITEMS - 1)
        else so).
Proof.
  intros Hc Hs Hso. unfold clampFields.
  rewrite (wrap_int_id (ec - 1)) by int_arith.
  rewrite (wrap_int_id (ec - VISIBLE_ITEMS)) by int_arith.
  destruct (Z.ltb_spec s 0); [lia |].
  rewrite Z.gtb_ltb. destruct (Z.ltb_spec (ec - 1) s); [lia |].
  rewrite (wrap_int_id (s - (VISIBLE_ITEMS - 1))) by int_arith.
  unfold VISIBLE_ITEMS in *.
  destruct (Z.ltb_spec s so).
  - rewrite (wrap_int_id (s + 5)) by int_arith.
    rewrite Z.geb_leb. destruct (Z.leb_spec (s + 5) s); [lia |].
    destruct (Z.ltb_spec s 0); [lia |].
    destruct (Z.ltb_spec (ec - 5) 0);
      rewrite Z.gtb_ltb; case_cmp; try lia; reflexivity.
  - rewrite (wrap_int_id (so + 5)) by int_arith.
    rewrite Z.geb_leb. destruct (Z.leb_spec (so + 5) s).
    + destruct (Z.ltb_spec (s - (5 - 1)) 0); [lia |].
      destruct (Z.ltb_spec (ec - 5) 0);
        rewrite Z.gtb_ltb; case_cmp; try lia; reflexivity.
    + destruct (Z.ltb_spec so 0); [lia |].
      destruct (Z.ltb_spec (ec - 5) 0);
        rewrite Z.gtb_ltb; case_cmp; try lia; reflexivity.
Qed.

Lemma scroll_inv_window st :
  scroll_inv st -> 0 <= selectionIndex st < entryCount st ->
  0 <= scrollOffset st <= Z.max 0 (entryCount st - VISIBLE_ITEMS).
Proof.
  unfold scroll_inv, VISIBLE_ITEMS. intros (H1 & H2 & H3) Hs.
  destruct (Z.leb_spec (entryCount st) 5); lia.
Qed.

Lemma clampScroll_stable st :
  int_ok (entryCount st) -> 0 <= selectionIndex st < entryCount st ->
  scroll_inv st -> clampScroll st = st.
Proof.
  intros Hc Hs Hinv. pose proof (scroll_inv_window st Hinv Hs) as Hw.
  destruct st as [es ec sel so p]. unfold scroll_inv in Hinv. fields.
  rewrite clampScroll_fields by lia.
  rewrite clampFields_window by assumption. cbn [fst snd].
  unfold VISIBLE_ITEMS in *.
  destruct (Z.ltb_spec sel so); [lia |].
  destruct (Z.leb_spec (so + 5) sel); [lia | reflexivity].
Qed.

(** X8: [clampScroll] is idempotent: a second call changes nothing. *)
Theorem clampScroll_idempotent (st : Browser) :
  state_ok st -> clampScroll (clampScroll st) = clampScroll st.
Proof.
  intros [He Hc Hs Ho Hp].
  destruct (clampScroll_frame st) as (_ & Hec & _).
  destruct (Z_le_gt_dec (entryCount st) 0) as [Hz | Hpos].
  - rewrite (clampScroll_empty (clampScroll st)) by lia.
    rewrite (clampScroll_empty st) by assumption. reflexivity.
  - destruct (clampScroll_spec st Hc Hs Ho) as (_ & Hsel & Hinv); [lia |].
    apply clampScroll_stable; rewrite ?Hec; assumption.
Qed.

Lemma clampScroll_idempotent_witness :
  state_ok (set_scrollOffset 9 sevenEntries)
  /\ clampScroll (clampScroll (set_scrollOffset 9 sevenEntries))
     = clampScroll (set_scrollOffset 9 sevenEntries).
Proof.
  assert (Hok : state_ok (set_scrollOffset 9 sevenEntries)) by concrete_ok.
  split; [exact Hok |]. exact (clampScroll_idempotent _ Hok).
Defined.

(** X9: what one Scroll press does to a consistent model.  Below the last
    entry the selection moves down by one, and the window moves down by
    one exactly when the selection was on the last visible row;
    on the last entry both go back to the top. *)
Theorem onScroll_step (st : Browser) :
  state_ok st -> 0 <= selectionIndex st < entryCount st -> scroll_inv st ->
  (selectionIndex st + 1 < entryCount st ->
   selectionIndex (fst (onScroll st)) = selectionIndex st + 1
   /\ scrollOffset (fst (onScroll st))
      = if selectionIndex st =? scrollOffset st + (VISIBLE_ITEMS - 1)
        then scrollOffset st + 1 else scrollOffset st)
  /\ (selectionIndex st + 1 = entryCount st ->
      selectionIndex (fst (onScroll st)) = 0
      /\ scrollOffset (fst (onScroll st)) = 0).
Proof.
  intros [He Hc Hs Ho Hp] Hsel Hinv.
  pose proof (scroll_inv_window st Hinv Hsel) as Hw.
  destruct st as [es ec sel so p]. unfold scroll_inv in Hinv. fields.
  unfold onScroll. fields.
  destruct (Z.leb_spec ec 0); [lia |].
  rewrite (wrap_int_id (sel + 1)) by int_arith.
  rewrite Z.geb_leb. unfold VISIBLE_ITEMS in *. split; intros Hcase.
  - destruct (Z.leb_spec ec (sel + 1)); [lia |].
    unfold set_selectionIndex. fields.
    rewrite clampScroll_fields by lia.
    rewrite clampFields_window by (unfold VISIBLE_ITEMS; lia || assumption).
    fields. unfold VISIBLE_ITEMS.
    split; [reflexivity |].
    destruct (Z.ltb_spec (sel + 1) so); [lia |].
    destruct (Z.leb_spec (so + 5) (sel + 1)), (Z.eqb_spec sel (so + (5 - 1)));
      lia.
  - destruct (Z.leb_spec ec (sel + 1)); [| lia].
    unfold set_selectionIndex. fields.
    rewrite clampScroll_fields by lia.
    rewrite clampFields_window by (unfold VISIBLE_ITEMS; lia || assumption).
    fields. unfold VISIBLE_ITEMS.
    split; [reflexivity |].
    destruct (Z.ltb_spec 0 so); [reflexivity |].
    destruct (Z.leb_spec (so + 5) 0); lia.
Qed.

Lemma onScroll_step_witness :
  state_ok onLastDir
  /\ selectionIndex (fst (onScroll onLastDir)) = 0
  /\ scrollOffset (fst (onScroll onLastDir)) = 0.
Proof.
  assert (Hok : state_ok onLastDir) by concrete_ok.
  split; [exact Hok |].
  apply (onScroll_step onLastDir Hok).
  - vm_compute. repeat split; try discriminate.
  - vm_compute. repeat split; try discriminate.
  - reflexivity.
Defined.

(** X10: with only a forward button every entry can still be selected: from
    a selection inside the list, each index of the list is reached
    after fewer than [entryCount] presses. *)
Theorem onScroll_reaches_every_entry (st : Browser) (j : Z) :
  state_ok st -> 0 <= selectionIndex st < entryCount st ->
  0 <= j < entryCount st ->
  exists n, (n < Z.to_nat (entryCount st))%nat
            /\ selectionIndex (scrollTimes n st) = j.
Proof.
  intros Hok Hsel Hj.
  exists (Z.to_nat ((j - selectionIndex st) mod entryCount st)).
  pose proof (Z.mod_pos_bound (j - selectionIndex st) (entryCount st)) as Hm.
  split; [lia |].
  rewrite scrollTimes_selection by assumption.
  rewrite Z2Nat.id by lia.
  rewrite Zplus_mod_idemp_r.
  replace (selectionIndex st + (j - selectionIndex st)) with j by lia.
  apply Z.mod_small. exact Hj.
Qed.

Lemma onScroll_reaches_every_entry_witness :
  state_ok onLastDir
  /\ exists n, (n < 7)%nat /\ selectionIndex (scrollTimes n onLastDir) = 3.
Proof.
  assert (Hok : state_ok onLastDir) by concrete_ok.
  split; [exact Hok |].
  apply (onScroll_reaches_every_entry onLastDir 3 Hok);
    vm_compute; repeat split; try discriminate.
Defined.

(** ** What drawUI puts on the screen *)

Lemma highlights_app a b : highlights (a ++ b) = (highlights a + highlights b)%nat.
Proof.
  induction a as [| e a IH]; [reflexivity |].
  destruct e; cbn [app highlights]; rewrite IH; reflexivity.
Qed.

Lemma readIndices_app a b : readIndices (a ++ b) = readIndices a ++ readIndices b.
Proof.
  induction a as [| e a IH]; [reflexivity |].
  destruct e; cbn [app readIndices]; rewrite IH; reflexivity.
Qed.

Lemma drawRows_highlights st n row y :
  0 <= scrollOffset st -> 0 <= row ->
  scrollOffset st + row + Z.of_nat n <= INT_MAX + 1 ->
  selectionIndex st < entryCount st ->
  highlights (drawRows st n row y)
  = if (scrollOffset st + row <=? selectionIndex st)
       && (selectionIndex st <? scrollOffset st + row + Z.of_nat n)
    then 1%nat else 0%nat.
Proof.
  intros Hso. revert row y.
  induction n as [| n IH]; intros row y Hrow Hmax Hsel; cbn [drawRows].
  - repeat case_cmp; cbn; try reflexivity. lia.
  - rewrite (wrap_int_id (scrollOffset st + row)) by int_arith.
    rewrite Z.geb_leb.
    destruct (Z.leb_spec (entryCount st) (scrollOffset st + row)).
    + destruct (Z.leb_spec (scrollOffset st + row) (selectionIndex st));
        [lia | reflexivity].
    + rewrite !highlights_app, IH by lia.
      replace (highlights [SetCursor 2 y;
                 ReadEntry (scrollOffset st + row) (entryCount st)])
        with 0%nat by reflexivity.
      match goal with |- context [if isDir ?e then ?a else ?b] =>
        replace (highlights (if isDir e then a else b)) with 0%nat
          by (destruct (isDir e); reflexivity) end.
      destruct (Z.eqb_spec (scrollOffset st + row) (selectionIndex st));
        cbn [highlights];
        repeat case_cmp; cbn [andb]; lia.
Qed.

Lemma drawRows_reads st n row y :
  0 <= scrollOffset st -> 0 <= row ->
  scrollOffset st + row + Z.of_nat n <= INT_MAX + 1 ->
  readIndices (drawRows st n row y)
  = rowReads (seqZ (scrollOffset st + row)
                (Z.min (Z.of_nat n)
                   (Z.max 0 (entryCount st - (scrollOffset st + row))))).
Proof.
  intros Hso. revert row y.
  induction n as [| n IH]; intros row y Hrow Hmax; cbn [drawRows].
  - rewrite seqZ_nil by lia. reflexivity.
  - rewrite (wrap_int_id (scrollOffset st + row)) by int_arith.
    rewrite Z.geb_leb.
    destruct (Z.leb_spec (entryCount st) (scrollOffset st + row)).
    + rewrite seqZ_nil by lia. reflexivity.
    + rewrite seqZ_cons by lia. cbn [rowReads].
      rewrite !readIndices_app, IH by lia.
      match goal with |- context [if ?c then ?a else ?b] =>
        replace (readIndices (if c then a else b)) with (@nil Z)
          by (destruct c; reflexivity) end.
      match goal with |- context [if isDir ?e then ?a else ?b] =>
        replace (readIndices (if isDir e then a else b))
          with [scrollOffset st + row]
          by (destruct (isDir e); reflexivity) end.
      cbn [readIndices app]. do 3 f_equal. f_equal; lia.
Qed.

(** X11: [drawUI] draws one row for each of the entries [scrollOffset],
    [scrollOffset + 1], ... up to the fifth or the last loaded entry,
    whichever comes first, top to bottom, and reads no other entry. *)
Theorem drawUI_rows (st : Browser) :
  0 <= scrollOffset st ->
  scrollOffset st + VISIBLE_ITEMS <= INT_MAX + 1 ->
  readIndices (drawUI st)
  = rowReads (seqZ (scrollOffset st)
                (Z.min VISIBLE_ITEMS
                   (Z.max 0 (entryCount st - scrollOffset st)))).
Proof.
  intros H0 Hmax. unfold drawUI.
  rewrite !readIndices_app.
  rewrite drawRows_reads by (unfold VISIBLE_ITEMS in *; cbn; lia).
  cbn [readIndices app]. rewrite app_nil_r, Z.add_0_r. reflexivity.
Qed.

Lemma drawUI_rows_witness :
  0 <= scrollOffset onLastDir
  /\ readIndices (drawUI onLastDir) = rowReads [2; 3; 4; 5; 6].
Proof.
  assert (H0 : 0 <= scrollOffset onLastDir) by (vm_compute; discriminate).
  split; [exact H0 |].
  rewrite (drawUI_rows onLastDir H0); [reflexivity |].
  vm_compute. discriminate.
Defined.

(** X12: between two actions the screen shows the selection: when the list
    is not empty exactly one row is drawn inverted (none when it is
    empty), and once five entries are loaded all five rows are drawn,
    so no blank row trails the list. *)
Theorem drawUI_shows_selection (st : Browser) :
  model_inv st ->
  highlights (drawUI st) = (if 0 <? entryCount st then 1%nat else 0%nat)
  /\ (VISIBLE_ITEMS <= entryCount st ->
      readIndices (drawUI st)
      = rowReads (seqZ (scrollOffset st) VISIBLE_ITEMS)).
Proof.
  intros ([He Hc Hs Ho Hp] & Hrange & Hpos & Hzero). split.
  - unfold drawUI. rewrite !highlights_app. cbn [highlights].
    rewrite Nat.add_0_r.
    destruct (Z.ltb_spec 0 (entryCount st)) as [Hp0 | Hz].
    + destruct (Hpos Hp0) as (Hsel & Hinv). unfold scroll_inv in Hinv.
      rewrite drawRows_highlights; try int_arith.
      unfold VISIBLE_ITEMS in *. cbn [Z.to_nat Z.of_nat].
      repeat case_cmp; cbn [andb]; try reflexivity; lia.
    + assert (Hec : entryCount st = 0) by lia.
      destruct (Hzero Hec) as (_ & Hso).
      change (Z.to_nat VISIBLE_ITEMS) with 5%nat. cbn [drawRows].
      rewrite Hso, Hec. reflexivity.
  - intros Hfull.
    assert (Hp0 : 0 < entryCount st) by (unfold VISIBLE_ITEMS in *; lia).
    destruct (Hpos Hp0) as (Hsel & Hinv). unfold scroll_inv in Hinv.
    rewrite drawUI_rows by int_arith.
    do 2 f_equal. unfold VISIBLE_ITEMS in *.
    destruct (Z.leb_spec (entryCount st) 5); lia.
Qed.

Lemma drawUI_shows_selection_witness :
  model_inv onLastDir /\ highlights (drawUI onLastDir) = 1%nat.
Proof.
  assert (Hinv : model_inv onLastDir).
  { split; [concrete_ok |].
    vm_compute. repeat split; try discriminate. }
  split; [exact Hinv |].
  exact (proj1 (drawUI_shows_selection onLastDir Hinv)).
Defined.

(** ** The three actions together *)

Lemma rooted_cut p : rooted p = true ->
  rooted (strncpy_term (PATH_SIZE - 1) p) = true.
Proof. intros H. apply (rooted_take 78), H. Qed.

Lemma pathJoin_rooted out base child :
  rooted base = true -> rooted (pathJoin out PATH_SIZE base child) = true.
Proof.
  intros Hr. destruct (rooted_inv base Hr) as (r & ->).
  unfold pathJoin. destruct (streq _ root); reflexivity.
Qed.

Lemma onEnter_rooted sd st :
  rooted (currentPath st) = true ->
  rooted (currentPath (fst (onEnter sd st))) = true.
Proof.
  intros Hr. unfold onEnter.
  case_if; [exact Hr |]. case_if; [| exact Hr].
  match goal with |- context [loadDirectory sd ?q st] =>
    pose proof (loadDirectory_path sd q st) as Hl;
    destruct (loadDirectory sd q st) as [[|] st'] end;
    cbn [fst snd] in *.
  - apply rooted_cut, pathJoin_rooted, Hr.
  - rewrite Hl. exact Hr.
Qed.

Lemma onBack_rooted sd st :
  rooted (currentPath st) = true ->
  rooted (currentPath (fst (onBack sd st))) = true.
Proof.
  intros Hr. unfold onBack. case_if; [exact Hr |].
  destruct (loadDirectory sd _ st) as [[|] st']; cbn [fst snd].
  - apply rooted_cut, goParent_rooted, rooted_cut, Hr.
  - rewrite loadDirectory_path. reflexivity.
Qed.

Lemma reachable_rooted sd st :
  reachable sd st -> rooted (currentPath st) = true.
Proof.
  induction 1 as [st Hok | st _ IH | st _ IH | st _ IH].
  - rewrite loadDirectory_path. reflexivity.
  - destruct (onScroll_frame st) as (_ & _ & ->). exact IH.
  - apply onEnter_rooted, IH.
  - apply onBack_rooted, IH.
Qed.

(** X13: whatever buttons are pressed after [setup], and whether the loads
    succeed or fail, the model stays consistent: the counters are in
    range, at most 50 entries are counted, the selection is an index of
    a loaded entry inside the window (0 with the window at the top when
    nothing is loaded), and [currentPath] begins with '/' and fits its
    buffer. *)
Theorem actions_keep_model_consistent (sd : SdCard) (st : Browser) :
  reachable sd st ->
  model_inv st /\ rooted (currentPath st) = true.
Proof.
  intros Hr. split; [eapply reachable_inv, Hr | eapply reachable_rooted, Hr].
Qed.

Lemma actions_keep_model_consistent_witness :
  reachable brokenCard (fst (onEnter brokenCard onLastDir))
  /\ model_inv (fst (onEnter brokenCard onLastDir)).
Proof.
  assert (Hr : reachable brokenCard (fst (onEnter brokenCard onLastDir))).
  { apply reach_enter. unfold onLastDir, scrollTimes.
    cbn [Nat.iter]. do 6 apply reach_scroll.
    apply (reach_setup brokenCard powerOn). exact powerOn_ok. }
  split; [exact Hr |].
  exact (proj1 (actions_keep_model_consistent brokenCard _ Hr)).
Defined.




Lemma press_nothing_loaded_at_root sd a st :
  currentPath st = root -> entryCount st <= 0 -> press sd a st = st.
Proof.
  intros Hp Hz. destruct a; unfold press.
  - rewrite onScroll_empty by assumption. reflexivity.
  - rewrite onEnter_empty by assumption. reflexivity.
  - rewrite onBack_at_root by assumption. reflexivity.
Qed.

(** X15: A consequence of the reset inside [loadDirectory]: when Enter fails
    in the root directory the list is left empty, and from then on no
    button does anything -- Scroll and Enter return at once on an empty
    list and Back returns at once in the root -- so the listing does
    not come back, whatever is pressed, and nothing is redrawn. *)
Theorem failed_enter_in_root_is_final
  (sd : SdCard) (st : Browser) (acts : list Action) :
  currentPath st = root -> 0 < entryCount st ->
  isDir (entryAt st (selectionIndex st)) = true ->
  fst (loadDirectory sd
         (pathJoin [] PATH_SIZE (currentPath st)
            (name (entryAt st (selectionIndex st)))) st) = false ->
  entryCount (press sd Enter st) = 0
  /\ pressAll sd acts (press sd Enter st) = press sd Enter st
  /\ snd (onScroll (press sd Enter st)) = []
  /\ snd (onEnter sd (press sd Enter st)) = []
  /\ snd (onBack sd (press sd Enter st)) = [].
Proof.
  intros Hp Hpos Hd Hfail. unfold press at 1 2 3 4 5 6.
  rewrite (onEnter_failed_load sd st Hpos Hd Hfail).
  set (st' := set_scrollOffset 0 _).
  assert (Hp' : currentPath st' = root) by exact Hp.
  assert (Hz : entryCount st' <= 0) by (subst st'; fields; lia).
  split; [reflexivity |]. split.
  - induction acts as [| a acts IH]; [reflexivity |].
    cbn [pressAll fold_left].
    rewrite press_nothing_loaded_at_root by assumption. exact IH.
  - rewrite onScroll_empty, onEnter_empty, onBack_at_root by assumption.
    auto.
Qed.

Lemma failed_enter_in_root_is_final_witness :
  0 < entryCount onLastDir
  /\ pressAll brokenCard [Back; Scroll; Enter; Scroll; Back]
       (press brokenCard Enter onLastDir)
     = press brokenCard Enter onLastDir.
Proof.
  assert (Hpos : 0 < entryCount onLastDir) by (vm_compute; reflexivity).
  split; [exact Hpos |].
  apply (failed_enter_in_root_is_final brokenCard onLastDir
           [Back; Scroll; Enter; Scroll; Back] eq_refl Hpos eq_refl eq_refl).
Defined.

(** ** The debouncer notices a held button *)

(** X16: the other direction of the debounce: a button whose press was
    recorded more than 120 ms ago (and less than 2^32 ms ago) and that
    still reads LOW is never reported as "not pressed" by the next
    call; once the pin is released for good the call returns [true],
    leaving the button state released. *)
Theorem buttonPressed_reports_held_button
  (env : Env) (pin : Z) (b : Button) (w : World) (t0 : Z) :
  (forall k, 0 <= latency env k) ->
  lastState b = LOW -> lastTime b = wrap_ulong t0 ->
  level env pin (clock w) = LOW ->
  DEBOUNCE_MS < clock w - t0 ->
  clock w + latency env (opCount w) - t0 < ULONG_MOD ->
  (forall fuel b' w',
     buttonPressed env fuel pin b w <> Some (false, b', w'))
  /\ (forall T fuel,
        (forall t, T <= t -> level env pin t = HIGH) ->
        (Z.to_nat (T - clock w) < fuel)%nat ->
        exists b' w',
          buttonPressed env fuel pin b w = Some (true, b', w')
          /\ lastState b' = HIGH
          /\ clock w <= clock w').
Proof.
  intros Hlat Hls Hlt Hlow Hlong Hwrap.
  pose proof (Hlat (opCount w)) as Hl0.
  pose proof (Hlat (S (opCount w))) as Hl1.
  assert (Hcond : (wrap_ulong (wrap_ulong (clock w + latency env (opCount w))
                               - lastTime b) >? DEBOUNCE_MS) = true).
  { rewrite Hlt. unfold wrap_ulong.
    rewrite Zminus_mod_idemp_l, Zminus_mod_idemp_r.
    unfold DEBOUNCE_MS in *.
    rewrite Z.mod_small by lia. apply Z.gtb_lt. lia. }
  assert (Hshape : forall fuel,
    buttonPressed env fuel pin b w
    = match waitRelease env pin fuel
              (mkWorld (clock w + latency env (opCount w)
                        + latency env (S (opCount w)))
                 (S (S (opCount w)))
                 (PressDetected pin (clock w + latency env (opCount w))
                    :: Sampled pin (clock w) LOW :: trace w)) with
      | None => None
      | Some w5 =>
          Some (true, mkButton HIGH (wrap_ulong (clock w5)), tick env w5)
      end).
  { intros fuel. unfold buttonPressed. cbn [digitalRead millis].
    rewrite Hlow, Hls. cbn [Bool.eqb LOW negb].
    cbn [tick clock opCount trace]. rewrite Hcond. reflexivity. }
  split.
  - intros fuel b' w'. rewrite Hshape.
    destruct (waitRelease _ _ _ _); discriminate.
  - intros T fuel Hrel Hfuel. rewrite Hshape.
    edestruct (waitRelease_returns env pin Hlat T fuel) as (w5 & E);
      [exact Hrel | | rewrite E].
    + cbn [clock]. lia.
    + eexists _, _. split; [reflexivity |]. split; [reflexivity |].
      apply waitRelease_trace in E as (Hc & _); [| exact Hlat].
      cbn [clock] in Hc. pose proof (tick_clock env Hlat w5). lia.
Qed.

Lemma buttonPressed_reports_held_button_witness :
  (forall k, 0 <= latency heldOnce k)
  /\ exists b' w',
       buttonPressed heldOnce 200 2 (mkButton LOW 110)
         (mkWorld 240 0 []) = Some (true, b', w')
       /\ lastState b' = HIGH.
Proof.
  assert (Hlat : forall k, 0 <= latency heldOnce k) by (intros k; cbn; lia).
  split; [exact Hlat |].
  destruct (buttonPressed_reports_held_button heldOnce 2 (mkButton LOW 110)
              (mkWorld 240 0 []) 110 Hlat eq_refl eq_refl eq_refl)
    as (_ & Hret).
  - vm_compute. reflexivity.
  - vm_compute. reflexivity.
  - destruct (Hret 400 200%nat) as (b' & w' & E & Hs & _).
    + intros t Ht. cbn.
      destruct (Z.ltb_spec t 400); [lia |]. rewrite andb_false_r.
      reflexivity.
    + vm_compute. lia.
    + exists b', w'. split; [exact E | exact Hs].
Defined.

(** ** setup and the splash screen *)

Lemma splashFrame_ok board ok elapsed :
  Forall fill_in_bar (splashFrame board ok ok elapsed)
  /\ Forall status_shown (splashFrame board ok ok elapsed).
Proof.
  unfold splashFrame. split.
  - repeat (apply List.Forall_cons; [exact I |]).
    apply List.Forall_cons; [| repeat constructor].
    cbn [fill_in_bar]. split; [reflexivity |].
    unfold barW. repeat case_cmp; lia.
  - repeat first
      [ apply List.Forall_nil
      | apply List.Forall_cons; [first [exact I | idtac] |] ].
    cbn [status_shown]. destruct ok; cbn; auto.
Qed.

Lemma ticks_nonneg env (w : World) :
  (forall k, 0 <= latency env k) ->
  0 <= latency env (opCount w)
  /\ 0 <= latency env (S (opCount w))
  /\ 0 <= latency env (S (S (opCount w)))
  /\ 0 <= latency env (S (S (S (opCount w))))
  /\ 0 <= latency env (S (S (S (S (opCount w))))).
Proof. intros H. repeat split; apply H. Qed.

Lemma ticks_bounded env (w : World) L :
  (forall k, 0 <= latency env k <= L) ->
  latency env (opCount w) <= L
  /\ latency env (S (opCount w)) <= L
  /\ latency env (S (S (opCount w))) <= L
  /\ latency env (S (S (S (opCount w)))) <= L
  /\ latency env (S (S (S (S (opCount w))))) <= L.
Proof. intros H. repeat split; apply H. Qed.

Lemma splashBody_clock board env sd start w s :
  (forall k, 0 <= latency env k) ->
  clock w + STEP_MS <= clock (hw (splashBody board env sd start w s)).
Proof.
  intros Hlat. pose proof (ticks_nonneg env w Hlat) as (H0 & H1 & H2 & H3 & H4).
  unfold splashBody, sdBegin, STEP_MS. cbn [millis].
  destruct (sdOk s); cbn [negb]; cbn [tick clock opCount];
    [| destruct (cardReady board _)];
    destruct (scanned s); cbn [andb negb hw delay tick clock opCount]; lia.
Qed.

Lemma splashBody_clock_bound board env sd start w s L :
  (forall k, 0 <= latency env k <= L) ->
  clock (hw (splashBody board env sd start w s)) <= clock w + STEP_MS + 5 * L.
Proof.
  intros Hlat.
  assert (Hnn : forall k, 0 <= latency env k) by (intros k; apply Hlat).
  pose proof (ticks_nonneg env w Hnn) as (H0 & H1 & H2 & H3 & H4).
  pose proof (ticks_bounded env w L Hlat) as (B0 & B1 & B2 & B3 & B4).
  unfold splashBody, sdBegin, STEP_MS. cbn [millis].
  destruct (sdOk s); cbn [negb]; cbn [tick clock opCount];
    [| destruct (cardReady board _)];
    destruct (scanned s); cbn [andb negb hw delay tick clock opCount]; lia.
Qed.

Lemma splashBody_inv board env sd start w s :
  splash_inv s -> splash_inv (splashBody board env sd start w s).
Proof.
  intros (Hok & Hsc & Hn & Hfill & Hstat).
  assert (Hload : state_ok
            (snd (loadDirectory sd root (set_currentPath root (model s))))).
  { apply loadDirectory_inv. destruct Hok as [He Hc Hs Ho _].
    split; try assumption. unfold PATH_SIZE. cbn. lia. }
  unfold splashBody, sdBegin. cbn [millis].
  rewrite Hsc in *.
  destruct (sdOk s); cbn [negb andb]; [| destruct (cardReady board _)];
    cbn [negb andb];
    (split; [assumption |]); cbn [scanned sdOk scans screen];
    (split; [reflexivity |]);
    (split; [first [assumption | rewrite Hn; reflexivity] |]);
    (split; apply Forall_app; split; try assumption;
     apply splashFrame_ok).
Qed.

Lemma splashLoop_inv board env sd c0 fuel s s' :
  (forall k, 0 <= latency env k) ->
  splash_inv s -> c0 <= clock (hw s) ->
  splashLoop board env sd (wrap_ulong c0) fuel s = Some s' ->
  splash_inv s' /\ TOTAL_MS <= clock (hw s') - c0.
Proof.
  intros Hlat. revert s.
  induction fuel as [| fuel IH]; intros s Hinv Hc E; [discriminate E |].
  cbn [splashLoop millis] in E.
  destruct (Z.ltb_spec (wrap_ulong (wrap_ulong (clock (hw s)) - wrap_ulong c0))
              TOTAL_MS) as [Hlt | Hge].
  - apply IH in E; [exact E | apply splashBody_inv, Hinv |].
    pose proof (splashBody_clock board env sd (wrap_ulong c0)
                  (tick env (hw s)) s Hlat).
    pose proof (tick_clock env Hlat (hw s)). unfold STEP_MS in *. lia.
  - inversion E; subst s'; clear E. cbn [hw model scanned sdOk scans screen].
    split; [exact Hinv |]. cbn [tick clock].
    pose proof (Hlat (opCount (hw s))).
    unfold wrap_ulong in Hge.
    rewrite Zminus_mod_idemp_l, Zminus_mod_idemp_r in Hge.
    assert (0 < ULONG_MOD) by (unfold ULONG_MOD; lia).
    pose proof (Z.mod_le (clock (hw s) - c0) ULONG_MOD). lia.
Qed.

Lemma splashLoop_terminates board env sd c0 n :
  (forall k, 0 <= latency env k <= 1000) ->
  forall fuel s,
    c0 <= clock (hw s) <= c0 + 12000 ->
    TOTAL_MS <= clock (hw s) - c0 + STEP_MS * Z.of_nat n ->
    (n < fuel)%nat ->
    exists s', splashLoop board env sd (wrap_ulong c0) fuel s = Some s'.
Proof.
  intros Hlat.
  assert (Hnn : forall k, 0 <= latency env k) by (intros k; apply Hlat).
  induction n as [| n IH]; intros fuel s Hc Hn Hfuel;
    (destruct fuel as [| fuel]; [lia |]);
    cbn [splashLoop millis];
    (assert (Hel : wrap_ulong (wrap_ulong (clock (hw s)) - wrap_ulong c0)
                   = clock (hw s) - c0)
       by (unfold wrap_ulong;
           rewrite Zminus_mod_idemp_l, Zminus_mod_idemp_r;
           apply Z.mod_small; unfold ULONG_MOD; lia));
    rewrite Hel;
    (destruct (Z.ltb_spec (clock (hw s) - c0) TOTAL_MS) as [Hlt | Hge];
     [| eauto]).
  - unfold TOTAL_MS, STEP_MS in *. lia.
  - apply IH; [| | lia].
    + pose proof (splashBody_clock board env sd (wrap_ulong c0)
                    (tick env (hw s)) s Hnn).
      pose proof (splashBody_clock_bound board env sd (wrap_ulong c0)
                    (tick env (hw s)) s 1000 Hlat).
      pose proof (Hlat (opCount (hw s))).
      unfold TOTAL_MS, STEP_MS in *. cbn [tick clock] in *. lia.
    + pose proof (splashBody_clock board env sd (wrap_ulong c0)
                    (tick env (hw s)) s Hnn).
      pose proof (Hlat (opCount (hw s))).
      unfold TOTAL_MS, STEP_MS in *. cbn [tick clock] in *. lia.
Qed.

Lemma splash_start_inv st w :
  state_ok st -> splash_inv (mkSplash false false st w [] O).
Proof.
  intros Hok. split; [exact Hok |]. cbn.
  repeat split; constructor.
Qed.

(** X17: during the splash the root directory is scanned at most once --
    exactly once if the card came up, not at all otherwise -- and the
    status line only ever reads "Loading SD..." or "Ready": the scan
    follows the successful [SD.begin] within the same iteration, so no
    frame is drawn in between. *)
Theorem splashLoop_scans_root_once
  (board : Board) (env : Env) (sd : SdCard) (fuel : nat)
  (st : Browser) (w : World) (s : Splash) :
  (forall k, 0 <= latency env k) ->
  state_ok st ->
  splashLoop board env sd (wrap_ulong (clock w)) fuel
    (mkSplash false false st (tick env w) [] O) = Some s ->
  (scans s <= 1)%nat
  /\ (scans s = 1%nat <-> sdOk s = true)
  /\ Forall status_shown (screen s).
Proof.
  intros Hlat Hok E.
  apply splashLoop_inv in E as ((_ & Hsc & Hn & _ & Hstat) & _);
    [| exact Hlat | apply splash_start_inv, Hok | apply tick_clock, Hlat].
  rewrite <- Hsc. rewrite Hn.
  split; [destruct (scanned s); lia |].
  split; [| exact Hstat].
  destruct (scanned s); split; intros H; try reflexivity; discriminate H.
Qed.

Lemma splashLoop_scans_root_once_witness :
  (forall k, 0 <= latency heldOnce k)
  /\ exists s,
       splashLoop slowCard heldOnce nestedCard (wrap_ulong 0) 200
         (mkSplash false false powerOn (tick heldOnce (mkWorld 0 0 [])) [] O)
       = Some s
       /\ scans s = 1%nat.
Proof.
  assert (Hlat : forall k, 0 <= latency heldOnce k) by (intros k; cbn; lia).
  split; [exact Hlat |].
  destruct (splashLoop slowCard heldOnce nestedCard (wrap_ulong 0) 200
              (mkSplash false false powerOn (tick heldOnce (mkWorld 0 0 []))
                 [] O)) as [s |] eqn:E.
  - exists s. split; [reflexivity |].
    destruct (splashLoop_scans_root_once slowCard heldOnce nestedCard 200
                powerOn (mkWorld 0 0 []) s Hlat powerOn_ok E) as (_ & Hiff & _).
    apply Hiff.
    assert (Hs : option_map sdOk (Some s) = Some true)
      by (rewrite <- E; vm_compute; reflexivity).
    injection Hs as Hs. exact Hs.
  - exfalso. vm_compute in E. discriminate E.
Defined.

(** X18: every bar the splash fills starts just inside the outline and is
    between 0 and 110 pixels wide, whatever the float computation of
    the width gives; the fatal screens fill nothing. *)
Theorem splash_bar_stays_in_outline
  (board : Board) (env : Env) (sd : SdCard) (fuel : nat)
  (st : Browser) (w : World) (o : Outcome) :
  (forall k, 0 <= latency env k) ->
  state_ok st ->
  splashWithLoadingBar board env sd fuel st w = Some o ->
  Forall fill_in_bar (shownBy o).
Proof.
  intros Hlat Hok E. unfold splashWithLoadingBar in E. cbn [millis] in E.
  destruct (splashLoop _ _ _ _ _ _) as [s |] eqn:El; [| discriminate E].
  apply splashLoop_inv in El as ((_ & _ & _ & Hfill & _) & _);
    [| exact Hlat | apply splash_start_inv, Hok | apply tick_clock, Hlat].
  unfold sdBegin in E.
  destruct (cardReady board _); cbn [negb] in E.
  - destruct (loadDirectory sd root _) as [[|] st']; inversion E; subst o;
      cbn [shownBy]; [exact Hfill |].
    apply Forall_app; split; [exact Hfill | repeat constructor].
  - inversion E; subst o. cbn [shownBy].
    apply Forall_app; split; [exact Hfill | repeat constructor].
Qed.

Lemma splash_bar_stays_in_outline_witness :
  (forall k, 0 <= latency heldOnce k)
  /\ exists o,
       splashWithLoadingBar slowCard heldOnce nestedCard 200 powerOn
         (mkWorld 0 0 []) = Some o
       /\ Forall fill_in_bar (shownBy o).
Proof.
  assert (Hlat : forall k, 0 <= latency heldOnce k) by (intros k; cbn; lia).
  split; [exact Hlat |].
  destruct (splashWithLoadingBar slowCard heldOnce nestedCard 200 powerOn
              (mkWorld 0 0 [])) as [o |] eqn:E.
  - exists o. split; [reflexivity |].
    exact (splash_bar_stays_in_outline slowCard heldOnce nestedCard 200
             powerOn (mkWorld 0 0 []) o Hlat powerOn_ok E).
  - exfalso. vm_compute in E. discriminate E.
Defined.

(** X19: when [setup] gets past the splash: the display answered, the root
    is a directory of the card, at least 5000 ms have passed, the model
    is the root listing -- a consistent state from which the actions
    run -- with [currentPath] "/", and the last thing drawn is that
    listing. *)
Theorem setup_starts_on_root
  (board : Board) (env : Env) (sd : SdCard) (fuel : nat)
  (st : Browser) (w : World) (st' : Browser) (w' : World)
  (shown : list Effect) :
  (forall k, 0 <= latency env k) ->
  state_ok st ->
  setup board env sd fuel st w = Some (Started st' w' shown) ->
  oledOk board = true
  /\ (exists files,
        sd root = Directory files
        /\ entryCount st' = Z.min MAX_ENTRIES (Z.of_nat (length files))
        /\ take (Z.to_nat (entryCount st')) (entries st')
           = map toEntry (take (Z.to_nat MAX_ENTRIES) files))
  /\ currentPath st' = root
  /\ selectionIndex st' = 0 /\ scrollOffset st' = 0
  /\ reachable sd st'
  /\ TOTAL_MS <= clock w' - clock w
  /\ exists frames, shown = frames ++ map Shown (drawUI st').
Proof.
  intros Hlat Hok E. unfold setup in E.
  destruct (oledOk board); cbn [negb] in E; [| discriminate E].
  split; [reflexivity |].
  destruct (splashWithLoadingBar board env sd fuel st w)
    as [[sh | st1 w1 sh] |] eqn:Es; inversion E; subst; clear E.
  unfold splashWithLoadingBar in Es. cbn [millis] in Es.
  destruct (splashLoop _ _ _ _ _ _) as [s |] eqn:El; [| discriminate Es].
  apply splashLoop_inv in El as ((Hm & _) & Hdur);
    [| exact Hlat | apply splash_start_inv, Hok | apply tick_clock, Hlat].
  unfold sdBegin in Es.
  destruct (cardReady board _); cbn [negb] in Es; [| discriminate Es].
  destruct (loadDirectory sd root (set_currentPath root (model s)))
    as [[|] st2] eqn:Eload; inversion Es; subst; clear Es.
  assert (Hok2 : state_ok (set_currentPath root (model s))).
  { destruct Hm as [He Hc Hs Ho _]. split; try assumption.
    unfold PATH_SIZE. cbn. lia. }
  assert (Hst' : st' = snd (loadDirectory sd root
                              (set_currentPath root (model s))))
    by (rewrite Eload; reflexivity).
  destruct (sd root) as [| | files] eqn:Hsd;
    try (rewrite loadDirectory_result, Hsd in Eload;
         cbv zeta in Eload; discriminate Eload).
  destruct (loadDirectory_success sd root _ files (ok_entries _ Hok2) Hsd)
    as (_ & H2 & H3 & _ & H5 & H6).
  rewrite <- Hst' in *.
  split; [exists files; auto |].
  split; [rewrite Hst', loadDirectory_path; reflexivity |].
  split; [exact H5 |]. split; [exact H6 |].
  split; [rewrite Hst'; apply reach_setup, Hm |].
  split; [| eexists; reflexivity].
  cbn [tick clock opCount].
  pose proof (Hlat (opCount (hw s))).
  pose proof (Hlat (S (opCount (hw s)))). lia.
Qed.

Lemma setup_starts_on_root_witness :
  (forall k, 0 <= latency heldOnce k)
  /\ exists st' w' shown,
       setup slowCard heldOnce nestedCard 200 powerOn (mkWorld 0 0 [])
       = Some (Started st' w' shown)
       /\ currentPath st' = root
       /\ TOTAL_MS <= clock w' - 0.
Proof.
  assert (Hlat : forall k, 0 <= latency heldOnce k) by (intros k; cbn; lia).
  split; [exact Hlat |].
  destruct (setup slowCard heldOnce nestedCard 200 powerOn (mkWorld 0 0 []))
    as [[sh | st' w' sh] |] eqn:E.
  - exfalso. vm_compute in E. discriminate E.
  - exists st', w', sh. split; [reflexivity |].
    destruct (setup_starts_on_root slowCard heldOnce nestedCard 200 powerOn
                (mkWorld 0 0 []) st' w' sh Hlat powerOn_ok E)
      as (_ & _ & Hp & _ & _ & _ & Hd & _).
    split; [exact Hp | exact Hd].
  - exfalso. vm_compute in E. discriminate E.
Defined.

(** X20: [setup] always comes to an end when no hardware operation takes
    more than a second: 101 iterations of the splash loop are enough.
    It then gets past the splash when the display answers, [SD.begin]
    succeeds and the root is a directory. *)
Theorem setup_returns
  (board : Board) (env : Env) (sd : SdCard) (fuel : nat)
  (st : Browser) (w : World) :
  (forall k, 0 <= latency env k <= 1000) ->
  (100 < fuel)%nat ->
  (exists o, setup board env sd fuel st w = Some o)
  /\ (oledOk board = true ->
      (forall t, cardReady board t = true) ->
      (exists files, sd root = Directory files) ->
      exists st' w' shown,
        setup board env sd fuel st w = Some (Started st' w' shown)).
Proof.
  intros Hlat Hfuel.
  destruct (splashLoop_terminates board env sd (clock w) 100 Hlat fuel
              (mkSplash false false st (tick env w) [] O))
    as (s & El); [| | exact Hfuel |].
  { cbn [hw tick clock]. pose proof (Hlat (opCount w)). lia. }
  { cbn [hw tick clock]. pose proof (Hlat (opCount w)).
    unfold TOTAL_MS, STEP_MS. lia. }
  split.
  - unfold setup. destruct (oledOk board); cbn [negb]; [| eauto].
    unfold splashWithLoadingBar. cbn [millis]. rewrite El.
    unfold sdBegin. destruct (cardReady board _); cbn [negb]; [| eauto].
    destruct (loadDirectory sd root _) as [[|] st2]; eauto.
  - intros Hold Hcard (files & Hsd).
    unfold setup. rewrite Hold. cbn [negb].
    unfold splashWithLoadingBar. cbn [millis]. rewrite El.
    unfold sdBegin. rewrite Hcard. cbn [negb].
    rewrite loadDirectory_result, Hsd. cbv zeta. eauto.
Qed.

Lemma setup_returns_witness :
  (forall k, 0 <= latency heldOnce k <= 1000)
  /\ exists o,
       setup slowCard heldOnce brokenCard 101 powerOn (mkWorld 0 0 [])
       = Some o.
Proof.
  assert (Hlat : forall k, 0 <= latency heldOnce k <= 1000)
    by (intros k; cbn; lia).
  split; [exact Hlat |].
  apply (setup_returns slowCard heldOnce brokenCard 101 powerOn
           (mkWorld 0 0 []) Hlat).
  lia.
Defined.

(** ** loop *)

Lemma buttonPressed_marks env pin fuel b w r b' w' :
  (forall k, 0 <= latency env k) ->
  buttonPressed env fuel pin b w = Some (r, b', w') ->
  pressCount (trace w')
  = (pressCount (trace w) + if r then 1 else 0)%nat.
Proof.
  intros Hlat E. unfold buttonPressed in E. cbn [digitalRead millis] in E.
  set (w1 := tick env _) in *.
  destruct (if negb (Bool.eqb (level env pin (clock w)) (lastState b))
            then (mkButton (level env pin (clock w))
                    (wrap_ulong (clock w1)), tick env w1)
            else (b, w1)) as [b1 w2] eqn:Eb.
  assert (Hw2 : pressCount (trace w2) = pressCount (trace w)).
  { destruct (negb _); inversion Eb; subst; reflexivity. }
  destruct (Bool.eqb (level env pin (clock w)) LOW).
  - destruct (_ >? DEBOUNCE_MS).
    + destruct (waitRelease env pin fuel _) as [w5 |] eqn:Ew;
        [| discriminate E].
      inversion E; subst; clear E.
      apply waitRelease_trace in Ew as (_ & t_r & lows & Ht & Hlows);
        [| exact Hlat].
      cbn [tick trace] in *. rewrite Ht. cbn [pressCount].
      rewrite (pressCount_low pin lows) by assumption.
      cbn [pressCount]. lia.
    + inversion E; subst. cbn [tick trace]. lia.
  - inversion E; subst. lia.
Qed.

Lemma spend_trace env evs w : trace (spend env evs w) = trace w.
Proof.
  unfold spend. cbn [tick trace]. revert w.
  induction evs as [| e evs IH]; intros w; [reflexivity |].
  cbn [fold_left]. rewrite IH. destruct e; reflexivity.
Qed.

Lemma pollThenAct_spec env fuel pin b action st w shown b' st' w' shown' :
  (forall k, 0 <= latency env k) ->
  pollThenAct env fuel pin b action st w shown = Some (b', st', w', shown') ->
  exists r : bool,
    st' = (if r then fst (action st) else st)
    /\ pressCount (trace w')
       = (pressCount (trace w) + if r then 1 else 0)%nat.
Proof.
  intros Hlat E. unfold pollThenAct in E.
  destruct (buttonPressed env fuel pin b w) as [[[r b1] w1] |] eqn:Eb;
    [| discriminate E].
  pose proof (buttonPressed_marks env pin fuel b w r b1 w1 Hlat Eb) as Hm.
  exists r. destruct r.
  - destruct (action st) as [st1 evs]. inversion E; subst.
    rewrite spend_trace. auto.
  - inversion E; subst. auto.
Qed.


Lemma loop_reachable env sd fuel s s' :
  (forall k, 0 <= latency env k) ->
  reachable sd (browser s) -> loop env sd fuel s = Some s' ->
  reachable sd (browser s').
Proof.
  intros Hlat Hr E. unfold loop in E.
  destruct (pollThenAct env fuel BTN_SCROLL _ _ _ _ _)
    as [[[[bs st1] w1] sh1] |] eqn:E1; [| discriminate E].
  destruct (pollThenAct env fuel BTN_ENTER _ _ _ _ _)
    as [[[[be st2] w2] sh2] |] eqn:E2; [| discriminate E].
  destruct (pollThenAct env fuel BTN_BACK _ _ _ _ _)
    as [[[[bb st3] w3] sh3] |] eqn:E3; [| discriminate E].
  inversion E; subst s'; clear E. cbn [browser].
  apply pollThenAct_spec in E1 as (r1 & -> & _); [| exact Hlat].
  apply pollThenAct_spec in E2 as (r2 & -> & _); [| exact Hlat].
  apply pollThenAct_spec in E3 as (r3 & -> & _); [| exact Hlat].
  assert (H1 : reachable sd (if r1 then fst (onScroll (browser s))
                             else browser s))
    by (destruct r1; [apply reach_scroll |]; exact Hr).
  set (st1 := if r1 then _ else _) in *.
  assert (H2 : reachable sd (if r2 then fst (onEnter sd st1) else st1))
    by (destruct r2; [apply reach_enter |]; exact H1).
  set (st2 := if r2 then _ else _) in *.
  destruct r3; [apply reach_back |]; exact H2.
Qed.

Lemma loops_reachable env sd fuel n s s' :
  (forall k, 0 <= latency env k) ->
  reachable sd (browser s) -> loops env sd fuel n s = Some s' ->
  reachable sd (browser s').
Proof.
  intros Hlat. revert s. induction n as [| n IH]; intros s Hr E;
    cbn [loops] in E.
  - inversion E; subst. exact Hr.
  - destruct (loop env sd fuel s) as [s1 |] eqn:E1; [| discriminate E].
    apply (IH s1); [| exact E].
    eapply loop_reachable; eauto.
Qed.

Lemma setup_reachable board env sd fuel st w st' w' shown :
  (forall k, 0 <= latency env k) -> state_ok st ->
  setup board env sd fuel st w = Some (Started st' w' shown) ->
  reachable sd st'.
Proof.
  intros Hlat Hok E. unfold setup in E.
  destruct (oledOk board); cbn [negb] in E; [| discriminate E].
  destruct (splashWithLoadingBar board env sd fuel st w)
    as [[sh | st1 w1 sh] |] eqn:Es; inversion E; subst; clear E.
  unfold splashWithLoadingBar in Es. cbn [millis] in Es.
  destruct (splashLoop _ _ _ _ _ _) as [s |] eqn:El; [| discriminate Es].
  apply splashLoop_inv in El as ((Hm & _) & _);
    [| exact Hlat | apply splash_start_inv, Hok | apply tick_clock, Hlat].
  unfold sdBegin in Es.
  destruct (cardReady board _); cbn [negb] in Es; [| discriminate Es].
  destruct (loadDirectory sd root (set_currentPath root (model s)))
    as [[|] st2] eqn:Eload; inversion Es; subst; clear Es.
  replace st' with (snd (loadDirectory sd root
                           (set_currentPath root (model s))))
    by (rewrite Eload; reflexivity).
  apply reach_setup, Hm.
Qed.

(** X22: the running sketch stays consistent: from power-on through [setup]
    and any number of passes of [loop], whatever the card holds, the
    buttons do and the operations take, the model satisfies its
    invariant and [currentPath] begins with '/'. *)
Theorem sketch_stays_consistent
  (board : Board) (env : Env) (sd : SdCard) (fuel n : nat)
  (st : Browser) (w : World) (st' : Browser) (w' : World)
  (shown : list Effect) (s : Sketch) :
  (forall k, 0 <= latency env k) ->
  state_ok st ->
  setup board env sd fuel st w = Some (Started st' w' shown) ->
  loops env sd fuel n (afterSetup st' w') = Some s ->
  model_inv (browser s) /\ rooted (currentPath (browser s)) = true.
Proof.
  intros Hlat Hok Es El.
  assert (Hr : reachable sd (browser s)).
  { eapply loops_reachable; [exact Hlat | | exact El].
    cbn [afterSetup browser]. eapply setup_reachable; eauto. }
  split; [eapply reachable_inv, Hr | eapply reachable_rooted, Hr].
Qed.


Lemma sketch_stays_consistent_witness :
  (forall k, 0 <= latency heldOnce k)
  /\ exists st' w' shown s,
       setup slowCard heldOnce nestedCard 200 powerOn (mkWorld 0 0 [])
       = Some (Started st' w' shown)
       /\ loops heldOnce nestedCard 200 5 (afterSetup st' w') = Some s
       /\ model_inv (browser s).
Proof.
  assert (Hlat : forall k, 0 <= latency heldOnce k) by (intros k; cbn; lia).
  split; [exact Hlat |].
  destruct (setup slowCard heldOnce nestedCard 200 powerOn (mkWorld 0 0 []))
    as [[sh | st' w' sh] |] eqn:E;
    [exfalso; vm_compute in E; discriminate E | |
     exfalso; vm_compute in E; discriminate E].
  exists st', w', sh.
  destruct (loops heldOnce nestedCard 200 5 (afterSetup st' w'))
    as [s |] eqn:El.
  - exists s. split; [reflexivity |]. split; [reflexivity |].
    exact (proj1 (sketch_stays_consistent slowCard heldOnce nestedCard 200 5
                    powerOn (mkWorld 0 0 []) st' w' sh s
                    Hlat powerOn_ok E El)).
  - exfalso.
    assert (Hrun :
      match setup slowCard heldOnce nestedCard 200 powerOn (mkWorld 0 0 [])
      with
      | Some (Started st1 w1 _) =>
          loops heldOnce nestedCard 200 5 (afterSetup st1 w1) <> None
      | _ => True
      end) by (vm_compute; discriminate).
    rewrite E in Hrun. apply Hrun, El.
Defined.
